(** * lua::Push: marshalling host values onto the Lua stack

    A shallow embedding of [Shared/mods/deathmatch/logic/lua/LuaBasic.h]
    (namespace [lua]): the overload set [Push(lua_State*, T)] that converts a
    C++ value into one Lua stack slot, and the properties the specification
    states about it.

    Layout: the Lua side (numbers, values, tables, the C API primitives),
    the host side (the supported C++ types and their values), the [Push]
    overloads, the vocabulary of the statements, and then the proofs.

    How the program is modelled:
    - a call is a function from the state it starts in to an [outcome]: it
      returns, or it unwinds with a C++ exception or a Lua error;
    - the overload is chosen by the static type, as in C++: [Push] is
      defined by recursion on a [HostType], over the values of that type;
    - [int] counters wrap at 32 bits, [lua_Number] is an IEEE binary64
      datum, and the conversions between the two are the rounding and the
      truncation of C++;
    - a Lua table is the list of its entries, compared by raw equality of
      keys; the Lua stack has room for every push. *)

From Stdlib Require Import ZArith List String Bool Lia Permutation.
From Stdlib Require Import Floats.SpecFloat.
Import ListNotations.

Local Open Scope Z_scope.

(* ================================================================== *)
(** * Numbers *)

(** [lua_Number] is the C [double]: an IEEE-754 binary64 datum. *)
Definition lua_Number : Type := spec_float.

Definition dbl_prec : Z := 53.
Definition dbl_emax : Z := 1024.

(** The C [int] is 32 bits wide, two's complement. *)
Definition INT_MIN : Z := - 2 ^ 31.
Definition INT_MAX : Z := 2 ^ 31 - 1.

Definition wrap_int (z : Z) : Z := (z + 2 ^ 31) mod 2 ^ 32 - 2 ^ 31.

(** [i++] on an [int]: the value after the increment. *)
Definition int_succ (i : Z) : Z := wrap_int (i + 1).

(** Integer to [double] conversion (round to nearest even; exact for every
    32-bit integer, signed or unsigned). *)
Definition number_of_int (z : Z) : lua_Number :=
  binary_normalize dbl_prec dbl_emax z 0 false.

(** [float] to [double] conversion: every binary32 value is a binary64
    value, so the datum is only re-normalised. *)
Definition number_of_float (f : spec_float) : lua_Number :=
  match f with
  | S754_finite s m e =>
      binary_normalize dbl_prec dbl_emax (cond_Zopp s (Zpos m)) e s
  | _ => f
  end.

(** [i++] on a [lua_Number]: the value after the increment. *)
Definition number_succ (n : lua_Number) : lua_Number :=
  SFadd dbl_prec dbl_emax n (number_of_int 1).

(** [double] to [int] conversion: truncation toward zero.  Out of range the
    conversion is undefined in C++; the model returns what the x86
    conversion instruction does, [INT_MIN]. *)
Definition int_of_number (n : lua_Number) : Z :=
  match n with
  | S754_zero _ => 0
  | S754_finite s m e =>
      let q := if 0 <=? e then Zpos m * 2 ^ e else Zpos m / 2 ^ (- e) in
      let z := cond_Zopp s q in
      if (INT_MIN <=? z) && (z <=? INT_MAX) then z else INT_MIN
  | _ => INT_MIN
  end.

Definition number_isnan (n : lua_Number) : bool :=
  match n with S754_nan => true | _ => false end.

(* ================================================================== *)
(** * Host objects the Lua side refers to *)

(** A raw C++ pointer: an address, [nullptr] being address 0. *)
Definition pointer : Type := Z.
Definition nullptr : pointer := 0.

(** Modelled from the spec: the geometric value classes [CVector2D],
    [CVector], [CVector4D] and [CMatrix] are only forward-declared in the
    header; they are plain aggregates of [float]s. *)
Record CVector2D := { v2_fX : spec_float; v2_fY : spec_float }.
Record CVector := { v3_fX : spec_float; v3_fY : spec_float; v3_fZ : spec_float }.
Record CVector4D :=
  { v4_fX : spec_float; v4_fY : spec_float; v4_fZ : spec_float; v4_fW : spec_float }.
Record CMatrix :=
  { vRight : CVector; vFront : CVector; vUp : CVector; vPos : CVector }.

(* ================================================================== *)
(** * Lua values and tables *)

(** What an opaque (userdata) slot stands for. *)
Inductive userdata : Type :=
| UElement (p : pointer)          (* handle of a script entity *)
| ULight (p : pointer)            (* light userdata held by a CLuaArgument *)
| UVector2D (v : CVector2D)
| UVector3D (v : CVector)
| UVector4D (v : CVector4D)
| UMatrix (m : CMatrix).

(** A Lua value.  A table is carried with its contents: every table this
    header builds is created by the push that fills it and is referenced
    from one stack slot only, so no two slots ever share a table. *)
#[warnings="-register-all"]
Inductive TValue : Type :=
| LNil
| LBoolean (b : bool)
| LNumber (n : lua_Number)
| LString (s : string)
| LUserdata (u : userdata)
| LTable (t : list (TValue * TValue)).

Definition Table : Type := list (TValue * TValue).

Definition userdata_equal (a b : userdata) : bool :=
  match a, b with
  | UElement p, UElement q => p =? q
  | ULight p, ULight q => p =? q
  | _, _ => false          (* vector and matrix objects are fresh per push *)
  end.

(** Raw equality of two values used as table keys.  Numbers compare as
    doubles; two tables are two distinct fresh objects. *)
Definition lua_rawequal (a b : TValue) : bool :=
  match a, b with
  | LNil, LNil => true
  | LBoolean x, LBoolean y => Bool.eqb x y
  | LNumber x, LNumber y => SFeqb x y
  | LString x, LString y => String.eqb x y
  | LUserdata x, LUserdata y => userdata_equal x y
  | _, _ => false
  end.

Definition ttisnil (v : TValue) : bool :=
  match v with LNil => true | _ => false end.

(** [t[k]], raw. *)
Fixpoint luaH_get (t : Table) (k : TValue) : TValue :=
  match t with
  | [] => LNil
  | (k', v) :: t' => if lua_rawequal k' k then v else luaH_get t' k
  end.

Fixpoint luaH_remove (t : Table) (k : TValue) : Table :=
  match t with
  | [] => []
  | (k', v) :: t' =>
      if lua_rawequal k' k then luaH_remove t' k else (k', v) :: luaH_remove t' k
  end.

Fixpoint luaH_insert (t : Table) (k v : TValue) : Table :=
  match t with
  | [] => [(k, v)]
  | (k', v') :: t' =>
      if lua_rawequal k' k then (k', v) :: t' else (k', v') :: luaH_insert t' k v
  end.

(** [t[k] = v], raw.  Storing nil leaves the key absent. *)
Definition luaH_set (t : Table) (k v : TValue) : Table :=
  if ttisnil v then luaH_remove t k else luaH_insert t k v.

(** [t[n]] for an integer key. *)
Definition luaH_getnum (t : Table) (n : Z) : TValue :=
  luaH_get t (LNumber (number_of_int n)).

(** The length of a table as the reference manual defines it: any [n] with
    [t[n]] not nil and [t[n+1]] nil; [n] may be 0 when [t[1]] is nil.  The
    runtime reports a length as an [int]. *)
Definition is_border (t : Table) (n : Z) : Prop :=
  0 <= n <= INT_MAX /\
  (n = 0 \/ luaH_getnum t n <> LNil) /\ luaH_getnum t (n + 1) = LNil.

(* ================================================================== *)
(** * The machine state *)

(** What a call of [Push] works on: the operand stack of the Lua state
    behind [lua_State* L], top of the stack first.  The host values are
    passed by [const] reference and only read; they are the arguments of
    the calls, not part of the state. *)
Record Process := {
  stack : list TValue
}.

Inductive exception : Type :=
| logic_error (what : string)      (* std::logic_error *)
| lua_error (msg : string).        (* error raised by the Lua runtime *)

(** A call either returns, or unwinds with an exception; in both cases the
    state reached is recorded. *)
Inductive outcome : Type :=
| Normal (L : Process)
| Throw (e : exception) (L : Process).

Definition M : Type := Process -> outcome.

Definition ret : M := fun L => Normal L.

Definition seq (c1 c2 : M) : M :=
  fun L => match c1 L with
           | Normal L' => c2 L'
           | Throw e L' => Throw e L'
           end.

Declare Scope cxx_scope.
Delimit Scope cxx_scope with cxx.
Notation "c1 ;; c2" := (seq c1 c2) (at level 61, right associativity) : cxx_scope.
Local Open Scope cxx_scope.

Definition lua_gettop (L : Process) : nat := List.length (stack L).

Definition set_stack (L : Process) (s : list TValue) : Process :=
  {| stack := s |}.

(** One more slot on top. *)
Definition lua_push (x : TValue) (L : Process) : Process :=
  set_stack L (x :: stack L).

(* ================================================================== *)
(** * Lua C API primitives *)

(** The Lua runtime is not part of the header.  Its primitives are modelled
    after the Lua 5.1 reference manual; the stack is taken to have room for
    every push. *)

(** Modelled from the spec: the runtime's "push number", one slot. *)
Definition lua_pushnumber (n : lua_Number) : M := fun L => Normal (lua_push (LNumber n) L).

(** Modelled from the spec: the runtime's "push boolean", one slot. *)
Definition lua_pushboolean (b : bool) : M := fun L => Normal (lua_push (LBoolean b) L).

(** Modelled from the spec: the runtime's "push null", one slot. *)
Definition lua_pushnil : M := fun L => Normal (lua_push LNil L).

(** Modelled from the spec: the runtime's "push string (length-prefixed,
    safe for embedded null bytes)", one slot holding a copy. *)
Definition lua_pushlstring (s : string) : M := fun L => Normal (lua_push (LString s) L).

(** Modelled from the spec: the runtime's "create empty indexed/associative
    table of given size hint"; [narr] and [nrec] only pre-allocate. *)
Definition lua_createtable (narr nrec : Z) : M := fun L => Normal (lua_push (LTable []) L).

(** Modelled from the spec: [lua_newtable] is [lua_createtable(L, 0, 0)]. *)
Definition lua_newtable : M := lua_createtable 0 0.

(** A stack index, resolved against a stack given top first: negative
    indices count from the top, positive ones from the bottom.  The result
    is the position in the list. *)
Definition index2adr (s : list TValue) (idx : Z) : option nat :=
  if idx <? 0 then
    if - idx <=? Z.of_nat (List.length s) then Some (Z.to_nat (- idx - 1)) else None
  else if (0 <? idx) && (idx <=? Z.of_nat (List.length s)) then
    Some (List.length s - Z.to_nat idx)%nat
  else None.

Fixpoint set_nth (s : list TValue) (n : nat) (x : TValue) : list TValue :=
  match s, n with
  | [], _ => []
  | _ :: s', O => x :: s'
  | y :: s', S n' => y :: set_nth s' n' x
  end.

(** Store [t[k] = v] into the table at position [pos] of stack [s], then
    drop the [npop] topmost slots. *)
Definition store_and_pop (L : Process) (pos : nat) (k v : TValue) (npop : nat) : outcome :=
  match nth_error (stack L) pos with
  | Some (LTable t) =>
      Normal (set_stack L (skipn npop (set_nth (stack L) pos (LTable (luaH_set t k v)))))
  | _ => Throw (lua_error "attempt to index a non-table value") L
  end.

(** Modelled from the spec: the runtime's "store value at index",
    [lua_rawseti(L, idx, n)]: [t[n] = v] for the table [t] at [idx] and the
    value [v] on top; pops the value. *)
Definition lua_rawseti (idx : Z) (n : Z) : M :=
  fun L =>
    match stack L, index2adr (stack L) idx with
    | v :: _, Some pos => store_and_pop L pos (LNumber (number_of_int n)) v 1
    | _, _ => Throw (lua_error "invalid stack index") L
    end.

(** Modelled from the spec: the runtime's "store key/value pair",
    [lua_settable(L, idx)]: [t[k] = v] for the table [t] at [idx], the
    value [v] on top and the key [k] just below; pops both.  A nil or NaN
    key is a runtime error. *)
Definition lua_settable (idx : Z) : M :=
  fun L =>
    match stack L, index2adr (stack L) idx with
    | v :: k :: _, Some pos =>
        match k with
        | LNil => Throw (lua_error "table index is nil") L
        | LNumber n =>
            if number_isnan n then Throw (lua_error "table index is NaN") L
            else store_and_pop L pos k v 2
        | _ => store_and_pop L pos k v 2
        end
    | _, _ => Throw (lua_error "invalid stack index") L
    end.

(* ================================================================== *)
(** * External collaborators of the header *)

(** Modelled from the spec: [lua_pushelement] is defined elsewhere in the
    repository ("PushOpaqueHandle(runtime, objectIdentity)": an opaque
    handle that identifies the object; "Null/empty references push the none
    value, not a handle"). *)
Definition lua_pushelement (p : pointer) : M :=
  fun L =>
    if p =? nullptr then lua_pushnil L
    else Normal (lua_push (LUserdata (UElement p)) L).

(** Modelled from the spec: [lua_pushvector] and [lua_pushmatrix] are
    defined elsewhere in the repository ("push opaque vector/matrix value",
    one slot each). *)
Definition lua_pushvector2D (v : CVector2D) : M :=
  fun L => Normal (lua_push (LUserdata (UVector2D v)) L).
Definition lua_pushvector3D (v : CVector) : M :=
  fun L => Normal (lua_push (LUserdata (UVector3D v)) L).
Definition lua_pushvector4D (v : CVector4D) : M :=
  fun L => Normal (lua_push (LUserdata (UVector4D v)) L).
Definition lua_pushmatrix (m : CMatrix) : M :=
  fun L => Normal (lua_push (LUserdata (UMatrix m)) L).

Definition LUA_TNONE : Z := -1.

(** Modelled from the spec: [CLuaArgument] is defined elsewhere in the
    repository ("a value of one of several runtime-facing primitive or
    container types, determined at runtime", with [GetTag] and [PushSelf]).
    It is represented by its tag and the Lua value it stands for. *)
Record CLuaArgument := {
  m_iType : Z;
  m_value : TValue
}.

Definition CLuaArgument_GetType (arg : CLuaArgument) : Z := m_iType arg.

(** Modelled from the spec: [arg.Push(L)], the wrapper's [PushSelf]: one
    slot for a tagged value, nothing at all for the "no value" tag. *)
Definition CLuaArgument_Push (arg : CLuaArgument) : M :=
  fun L =>
    if m_iType arg =? LUA_TNONE then Normal L
    else Normal (lua_push (m_value arg) L).

(** Modelled from the spec: [CLuaArguments] is defined elsewhere in the
    repository ("GenericValueListWrapper.PushAsTable(runtime)": pushes one
    indexed table).  The list is represented by the table it pushes. *)
Record CLuaArguments := {
  m_table : Table
}.

(** Modelled from the spec: [args.PushAsTable(L)] "pushes one indexed
    table". *)
Definition CLuaArguments_PushAsTable (args : CLuaArguments) : M :=
  fun L => Normal (lua_push (LTable (m_table args)) L).

(* ================================================================== *)
(** * Host types and host values *)

(** [std::shared_ptr<T>]: the stored pointer and the control block it
    shares ownership through. *)
Record shared_ptr := {
  sp_stored : pointer;
  sp_ctrl : pointer
}.
Definition shared_ptr_get (ptr : shared_ptr) : pointer := sp_stored ptr.

(** [std::unique_ptr<T>]: the pointer it owns. *)
Record unique_ptr := {
  up_stored : pointer
}.
Definition unique_ptr_get (ptr : unique_ptr) : pointer := up_stored ptr.

(** The static types [Push] is overloaded or instantiated for.  An
    enumeration type comes with its [EnumToString]; that function is
    defined elsewhere in the repository, per enumeration. *)
#[warnings="-register-all"]
Inductive HostType : Type :=
| Tint
| Tunsigned
| Tfloat
| Tdouble
| Tbool
| Tnullptr
| Tstring
| TCLuaArgument
| TCLuaArguments
| TCVector2D
| TCVector
| TCVector4D
| TCMatrix
| Tenum (EnumToString : Z -> string)
| Tptr                                 (* T* for a class type T *)
| Tshared_ptr
| Tunique_ptr
| Tvariant (Ts : list HostType)
| Toptional (T : HostType)
| Tarray (T : HostType) (N : nat)
| Tvector (T : HostType)
| Tunordered_map (K V : HostType)
| Ttuple (Ts : list HostType).

Section Families.
Context {A : Type}.
Variable F : A -> Type.

(** [std::variant<Ts...>]: a value of exactly one alternative.  (A variant
    left valueless by an exception holds no value and is not modelled.) *)
Fixpoint variant_of (Ts : list A) : Type :=
  match Ts with
  | [] => Empty_set
  | T :: Ts' => (F T + variant_of Ts')%type
  end.

(** [std::tuple<Ts...>]: one value per component. *)
Fixpoint tuple_of (Ts : list A) : Type :=
  match Ts with
  | [] => unit
  | T :: Ts' => (F T * tuple_of Ts')%type
  end.
End Families.

(** [std::array<T, N>]: exactly [N] elements. *)
Fixpoint std_array (A : Type) (N : nat) : Type :=
  match N with
  | O => unit
  | S n => (A * std_array A n)%type
  end.

(** The elements of an array in iteration order. *)
Fixpoint array_elements {A : Type} (N : nat) : std_array A N -> list A :=
  match N with
  | O => fun _ => []
  | S n => fun a => fst a :: array_elements n (snd a)
  end.

(** The values of a host type.  An [int] or an [unsigned] is the integer it
    holds, a [float] or a [double] its IEEE datum; an [unordered_map] is
    given by its entries in the order its iterator visits them. *)
Fixpoint denote (T : HostType) : Type :=
  match T with
  | Tint => Z
  | Tunsigned => Z
  | Tfloat => spec_float
  | Tdouble => spec_float
  | Tbool => bool
  | Tnullptr => unit
  | Tstring => string
  | TCLuaArgument => CLuaArgument
  | TCLuaArguments => CLuaArguments
  | TCVector2D => CVector2D
  | TCVector => CVector
  | TCVector4D => CVector4D
  | TCMatrix => CMatrix
  | Tenum _ => Z
  | Tptr => pointer
  | Tshared_ptr => shared_ptr
  | Tunique_ptr => unique_ptr
  | Tvariant Ts => variant_of denote Ts
  | Toptional T => option (denote T)
  | Tarray T N => std_array (denote T) N
  | Tvector T => list (denote T)
  | Tunordered_map K V => list (denote K * denote V)
  | Ttuple Ts => tuple_of denote Ts
  end.

(* ================================================================== *)
(** * The Push overloads *)

(** ** Leaf pushers *)

Definition Push_int (value : Z) : M := lua_pushnumber (number_of_int value).
Definition Push_unsigned (value : Z) : M := lua_pushnumber (number_of_int value).
Definition Push_float (value : spec_float) : M := lua_pushnumber (number_of_float value).
Definition Push_double (value : spec_float) : M := lua_pushnumber value.
Definition Push_bool (value : bool) : M := lua_pushboolean value.
Definition Push_nullptr (_ : unit) : M := lua_pushnil.
Definition Push_string (value : string) : M := lua_pushlstring value.

Definition Push_CLuaArgument (arg : CLuaArgument) : M :=
  fun L =>
    if CLuaArgument_GetType arg =? LUA_TNONE
    then Throw (logic_error "lua::Push") L
    else CLuaArgument_Push arg L.

Definition Push_CLuaArguments (args : CLuaArguments) : M :=
  CLuaArguments_PushAsTable args.

Definition Push_CVector2D (value : CVector2D) : M := lua_pushvector2D value.
Definition Push_CVector (value : CVector) : M := lua_pushvector3D value.
Definition Push_CVector4D (value : CVector4D) : M := lua_pushvector4D value.
Definition Push_CMatrix (value : CMatrix) : M := lua_pushmatrix value.

(** ** Enum and reference pushers *)

Definition Push_enum (EnumToString : Z -> string) (val : Z) : M :=
  Push_string (EnumToString val).

Definition Push_ptr (val : pointer) : M := lua_pushelement val.
Definition Push_shared_ptr (ptr : shared_ptr) : M := lua_pushelement (shared_ptr_get ptr).
Definition Push_unique_ptr (ptr : unique_ptr) : M := lua_pushelement (unique_ptr_get ptr).

(** ** Composite pushers, over the pusher of their elements *)

Section Composite.
Context {A : Type}.
Variable push : A -> M.

Definition Push_optional (val : option A) : M :=
  match val with
  | Some value => push value
  | None => Push_nullptr tt
  end.

(** The body of the range-for of the array pusher, [i] being a
    [lua_Number]. *)
Fixpoint array_loop (i : lua_Number) (val : list A) : M :=
  match val with
  | [] => ret
  | v :: rest =>
      push v ;;
      lua_rawseti (-2) (int_of_number i) ;;
      array_loop (number_succ i) rest
  end.

Definition Push_array (N : nat) (val : std_array A N) : M :=
  lua_createtable (Z.of_nat N) 0 ;;
  array_loop (number_of_int 1) (array_elements N val).

(** The body of the range-for of the vector pusher, [i] being an [int]. *)
Fixpoint vector_loop (i : Z) (val : list A) : M :=
  match val with
  | [] => ret
  | v :: rest =>
      Push_int i ;;
      push v ;;
      lua_settable (-3) ;;
      vector_loop (int_succ i) rest
  end.

Definition Push_vector (val : list A) : M :=
  lua_newtable ;;
  vector_loop 1 val.
End Composite.

Section Map.
Context {A B : Type}.
Variable pushK : A -> M.
Variable pushV : B -> M.

Fixpoint map_loop (val : list (A * B)) : M :=
  match val with
  | [] => ret
  | (k, v) :: rest =>
      pushK k ;;
      pushV v ;;
      lua_settable (-3) ;;
      map_loop rest
  end.

Definition Push_unordered_map (val : list (A * B)) : M :=
  lua_newtable ;;
  map_loop val.
End Map.

Section Heterogeneous.
Context {A : Type}.
Variable F : A -> Type.
Variable push : forall T : A, F T -> M.

(** [std::visit] of the pushing lambda: the instance for the alternative
    the variant holds is the one that runs. *)
Fixpoint std_visit (Ts : list A) : variant_of F Ts -> M :=
  match Ts with
  | [] => fun val => match val with end
  | T :: Ts' => fun val =>
      match val with
      | inl value => push T value
      | inr rest => std_visit Ts' rest
      end
  end.

(** The fold [(PushTable(L, key, values), ...)] over the components, left
    to right; [key] is the [int] the lambda takes by reference. *)
Fixpoint tuple_fold (Ts : list A) (key : Z) : tuple_of F Ts -> M :=
  match Ts with
  | [] => fun _ => ret
  | T :: Ts' => fun values =>
      push T (fst values) ;;
      lua_rawseti (-2) key ;;
      tuple_fold Ts' (int_succ key) (snd values)
  end.

Definition Push_tuple (Ts : list A) (tuple : tuple_of F Ts) : M :=
  lua_createtable (Z.of_nat (List.length Ts)) 0 ;;
  tuple_fold Ts 1 tuple.

(** [val.index()] *)
Fixpoint variant_index (Ts : list A) : variant_of F Ts -> nat :=
  match Ts with
  | [] => fun val => match val with end
  | T :: Ts' => fun val =>
      match val with
      | inl _ => O
      | inr rest => S (variant_index Ts' rest)
      end
  end.

(** [std::get_if<j>(&val)]: the value held, when the alternative held is
    the [j]-th. *)
Fixpoint variant_get_if (Ts : list A) (j : nat) : variant_of F Ts -> option {T : A & F T} :=
  match Ts with
  | [] => fun val => match val with end
  | T :: Ts' => fun val =>
      match val, j with
      | inl value, O => Some (existT F T value)
      | inr rest, S j' => variant_get_if Ts' j' rest
      | _, _ => None
      end
  end.

(** The components of a tuple in declaration order, each with its type. *)
Fixpoint tuple_components (Ts : list A) : tuple_of F Ts -> list {T : A & F T} :=
  match Ts with
  | [] => fun _ => []
  | T :: Ts' => fun values =>
      existT F T (fst values) :: tuple_components Ts' (snd values)
  end.
End Heterogeneous.

(** ** The dispatch entry point: the overload chosen by the static type *)

Fixpoint Push (T : HostType) : denote T -> M :=
  match T return denote T -> M with
  | Tint => Push_int
  | Tunsigned => Push_unsigned
  | Tfloat => Push_float
  | Tdouble => Push_double
  | Tbool => Push_bool
  | Tnullptr => Push_nullptr
  | Tstring => Push_string
  | TCLuaArgument => Push_CLuaArgument
  | TCLuaArguments => Push_CLuaArguments
  | TCVector2D => Push_CVector2D
  | TCVector => Push_CVector
  | TCVector4D => Push_CVector4D
  | TCMatrix => Push_CMatrix
  | Tenum EnumToString => Push_enum EnumToString
  | Tptr => Push_ptr
  | Tshared_ptr => Push_shared_ptr
  | Tunique_ptr => Push_unique_ptr
  | Tvariant Ts => std_visit denote Push Ts
  | Toptional T => Push_optional (Push T)
  | Tarray T N => Push_array (Push T) N
  | Tvector T => Push_vector (Push T)
  | Tunordered_map K V => Push_unordered_map (Push K) (Push V)
  | Ttuple Ts => Push_tuple denote Push Ts
  end.

(* ================================================================== *)
(** * Vocabulary of the statements *)

(** The state a call ends in, whichever way it ends. *)
Definition final_state (o : outcome) : Process :=
  match o with
  | Normal L => L
  | Throw _ L => L
  end.

(** [runs c pre post]: started on any stack that begins with [pre], the
    call returns and has replaced [pre] by [post]; nothing below is
    touched. *)
Definition runs (c : M) (pre post : list TValue) : Prop :=
  forall L s, stack L = pre ++ s -> c L = Normal (set_stack L (post ++ s)).

(** [unwinds c pre]: started on any stack that begins with [pre], the call
    throws, leaving some slots [junk] in place of [pre]. *)
Definition unwinds (c : M) (pre : list TValue) : Prop :=
  exists e junk, forall L s, stack L = pre ++ s -> c L = Throw e (set_stack L (junk ++ s)).

(** What every call of [Push] does: it pushes one value, or it unwinds. *)
Definition pushes_or_unwinds (c : M) : Prop :=
  (exists x, runs c [] [x]) \/ unwinds c [].

(** What [lua_settable] accepts as a key. *)
Definition valid_key (k : TValue) : bool :=
  match k with
  | LNil => false
  | LNumber n => negb (number_isnan n)
  | _ => true
  end.

(** The table the vector and tuple loops leave behind when their elements
    push the values [xs] in turn and the [int] counter starts at [i]. *)
Fixpoint int_table (t : Table) (i : Z) (xs : list TValue) : Table :=
  match xs with
  | [] => t
  | x :: xs' => int_table (luaH_set t (LNumber (number_of_int i)) x) (int_succ i) xs'
  end.

(** The same for the array loop, whose counter is a [lua_Number]. *)
Fixpoint number_table (t : Table) (i : lua_Number) (xs : list TValue) : Table :=
  match xs with
  | [] => t
  | x :: xs' =>
      number_table (luaH_set t (LNumber (number_of_int (int_of_number i))) x)
                   (number_succ i) xs'
  end.

Section Everywhere.
Context {A : Type}.
Variable F : A -> Type.
Variable P : forall T : A, F T -> Prop.

(** [P] holds of the alternative held. *)
Fixpoint variant_all (Ts : list A) : variant_of F Ts -> Prop :=
  match Ts with
  | [] => fun _ => True
  | T :: Ts' => fun val =>
      match val with
      | inl value => P T value
      | inr rest => variant_all Ts' rest
      end
  end.

(** [P] holds of every component. *)
Fixpoint tuple_all (Ts : list A) : tuple_of F Ts -> Prop :=
  match Ts with
  | [] => fun _ => True
  | T :: Ts' => fun values => P T (fst values) /\ tuple_all Ts' (snd values)
  end.
End Everywhere.

(** The host values [Push] can marshal: no generic value tagged "no value"
    anywhere inside, and no map key that arrives in Lua as nil or NaN. *)
Fixpoint marshallable (T : HostType) : denote T -> Prop :=
  match T return denote T -> Prop with
  | TCLuaArgument => fun arg => CLuaArgument_GetType arg <> LUA_TNONE
  | Tvariant Ts => variant_all denote marshallable Ts
  | Toptional T => fun val =>
      match val with
      | Some value => marshallable T value
      | None => True
      end
  | Tarray T N => fun val => Forall (marshallable T) (array_elements N val)
  | Tvector T => fun val => Forall (marshallable T) val
  | Tunordered_map K V => fun val =>
      Forall (fun kv => marshallable K (fst kv) /\ marshallable V (snd kv) /\
                        exists k, runs (Push K (fst kv)) [] [k] /\ valid_key k = true) val
  | Ttuple Ts => tuple_all denote marshallable Ts
  | _ => fun _ => True
  end.

(** A process whose Lua stack is empty. *)
Definition empty_process : Process :=
  {| stack := [] |}.

(** The canonical binary64 mantissa and exponent of a positive integer
    below 2^53. *)
Definition canon (p : positive) : positive * Z :=
  shl_align p 0 (Zpos (digits2_pos p) - dbl_prec).

(** A table whose keys are all integers from 1 to [hi]. *)
Definition int_keyed (hi : Z) (t : Table) : Prop :=
  Forall (fun kv => exists j, 0 < j <= hi /\ fst kv = LNumber (number_of_int j)) t.

(** [throws c pre e junk]: started on any stack that begins with [pre], the
    call throws [e], leaving the slots [junk] in place of [pre]. *)
Definition throws (c : M) (pre : list TValue) (e : exception) (junk : list TValue) : Prop :=
  forall L s, stack L = pre ++ s -> c L = Throw e (set_stack L (junk ++ s)).

(** The table the map loop leaves behind when its entries push the keys and
    values [kxs] in turn. *)
Fixpoint pair_table (t : Table) (kxs : list (TValue * TValue)) : Table :=
  match kxs with
  | [] => t
  | (k, x) :: rest => pair_table (luaH_set t k x) rest
  end.

(** The value of the last pair of [kxs] whose key is raw-equal to [q]; [d]
    when there is none. *)
Fixpoint last_value (kxs : list (TValue * TValue)) (q d : TValue) : TValue :=
  match kxs with
  | [] => d
  | (k, x) :: rest => last_value rest q (if lua_rawequal k q then x else d)
  end.

(** The C [float] is an IEEE binary32 datum. *)
Definition flt_prec : Z := 24.
Definition flt_emax : Z := 128.

(** The C [unsigned int] is 32 bits wide. *)
Definition UINT_MAX : Z := 2 ^ 32 - 1.

(** The tuple pusher as the specification words it: "create one indexed
    foreign container sized to the tuple's arity; recurse on each element in
    declaration order 1..n, storing at index i".  [cs] lists the components
    in declaration order, each with its type; the index is a mathematical
    integer, counted up from [i]. *)
Fixpoint store_in_order (cs : list {T : HostType & denote T}) (i : Z) : M :=
  match cs with
  | [] => ret
  | c :: rest =>
      Push (projT1 c) (projT2 c) ;;
      lua_rawseti (-2) i ;;
      store_in_order rest (i + 1)
  end.

Definition spec_Push_tuple (cs : list {T : HostType & denote T}) : M :=
  lua_createtable (Z.of_nat (List.length cs)) 0 ;;
  store_in_order cs 1.

(* ================================================================== *)
(** * Integers held in a double

    Every integer of magnitude below 2^53 converts to a double exactly;
    the conversion is injective there, truncation undoes it, and adding
    1.0 is exact. *)

Lemma digits2_pos_iter_xO (p k : positive) :
  digits2_pos (Pos.iter xO p k) = (digits2_pos p + k)%positive.
Proof.
  induction k using Pos.peano_ind.
  - simpl. lia.
  - rewrite Pos.iter_succ. simpl. rewrite IHk. lia.
Qed.

Lemma Zpos_iter_xO (p k : positive) :
  Zpos (Pos.iter xO p k) = Zpos p * 2 ^ Zpos k.
Proof.
  induction k using Pos.peano_ind.
  - simpl. lia.
  - rewrite Pos.iter_succ, Pos2Z.inj_xO, IHk, Pos2Z.inj_succ, Z.pow_succ_r by lia. lia.
Qed.

Lemma digits2_pos_bound (p : positive) :
  2 ^ (Zpos (digits2_pos p) - 1) <= Zpos p < 2 ^ Zpos (digits2_pos p).
Proof.
  induction p; simpl digits2_pos.
  - rewrite Pos2Z.inj_succ, Z.pow_succ_r by lia.
    replace (Z.succ (Zpos (digits2_pos p)) - 1) with (Z.succ (Zpos (digits2_pos p) - 1)) by lia.
    rewrite Z.pow_succ_r by lia. lia.
  - rewrite Pos2Z.inj_succ, Z.pow_succ_r by lia.
    replace (Z.succ (Zpos (digits2_pos p)) - 1) with (Z.succ (Zpos (digits2_pos p) - 1)) by lia.
    rewrite Z.pow_succ_r by lia. lia.
  - simpl. lia.
Qed.

Lemma digits2_pos_le (p : positive) (n : Z) :
  0 <= n -> Zpos p < 2 ^ n -> Zpos (digits2_pos p) <= n.
Proof.
  intros Hn Hp.
  destruct (Z_le_gt_dec (Zpos (digits2_pos p)) n) as [|Hgt]; [assumption|].
  pose proof (digits2_pos_bound p) as [Hlo _].
  assert (2 ^ n <= 2 ^ (Zpos (digits2_pos p) - 1)) by (apply Z.pow_le_mono_r; lia).
  lia.
Qed.

Lemma canon_digits (p : positive) :
  Zpos (digits2_pos p) <= dbl_prec ->
  Zpos (digits2_pos (fst (canon p))) = dbl_prec /\
  snd (canon p) = Zpos (digits2_pos p) - dbl_prec.
Proof.
  unfold canon, shl_align. intros Hd.
  remember (Zpos (digits2_pos p) - dbl_prec) as x eqn:Hx.
  destruct (x - 0) as [|q|q] eqn:E; cbn [fst snd]; try lia.
  rewrite digits2_pos_iter_xO. lia.
Qed.

Lemma canon_value (p : positive) :
  Zpos (digits2_pos p) <= dbl_prec ->
  Zpos (fst (canon p)) = Zpos p * 2 ^ (- snd (canon p)) /\ snd (canon p) <= 0.
Proof.
  unfold canon, shl_align. intros Hd.
  remember (Zpos (digits2_pos p) - dbl_prec) as x eqn:Hx.
  destruct (x - 0) as [|q|q] eqn:E; cbn [fst snd]; try lia.
  rewrite Zpos_iter_xO. split; [|lia]. f_equal. f_equal. lia.
Qed.

Lemma binary_round_aux_canonical (s : bool) (m : positive) (e : Z) :
  Zpos (digits2_pos m) = dbl_prec -> -1074 <= e <= 971 ->
  binary_round_aux dbl_prec dbl_emax s (Zpos m) e loc_Exact = S754_finite s m e.
Proof.
  intros Hd He.
  assert (Hshift : fexp dbl_prec dbl_emax (Zdigits2 (Zpos m) + e) - e = 0).
  { unfold fexp, emin, Zdigits2. rewrite Hd. unfold dbl_prec, dbl_emax. lia. }
  unfold binary_round_aux, shr_fexp.
  rewrite Hshift. cbn [shr shr_record_of_loc shr_m loc_of_shr_record round_nearest_even].
  rewrite Hshift. cbn [shr shr_record_of_loc shr_m].
  replace (dbl_emax - dbl_prec) with 971 by reflexivity.
  destruct (Z.leb_spec e 971); [reflexivity | lia].
Qed.

Lemma binary_round_small (s : bool) (p : positive) :
  Zpos (digits2_pos p) <= dbl_prec ->
  binary_round dbl_prec dbl_emax s p 0 = S754_finite s (fst (canon p)) (snd (canon p)).
Proof.
  intros Hd.
  destruct (canon_digits p Hd) as [H1 H2].
  unfold binary_round.
  replace (fexp dbl_prec dbl_emax (Zpos (digits2_pos p) + 0))
    with (Zpos (digits2_pos p) - dbl_prec)
    by (unfold fexp, emin, dbl_prec, dbl_emax in *; lia).
  fold (canon p).
  destruct (canon p) as [mz ez] eqn:E. cbn [fst snd] in *.
  apply binary_round_aux_canonical; [assumption|].
  unfold dbl_prec in *. lia.
Qed.

Lemma number_of_int_pos (p : positive) :
  Zpos p < 2 ^ 53 ->
  number_of_int (Zpos p) = S754_finite false (fst (canon p)) (snd (canon p)).
Proof.
  intros Hp. unfold number_of_int, binary_normalize.
  apply binary_round_small. apply digits2_pos_le; unfold dbl_prec; lia.
Qed.

Lemma number_of_int_neg (p : positive) :
  Zpos p < 2 ^ 53 ->
  number_of_int (Zneg p) = S754_finite true (fst (canon p)) (snd (canon p)).
Proof.
  intros Hp. unfold number_of_int, binary_normalize.
  apply binary_round_small. apply digits2_pos_le; unfold dbl_prec; lia.
Qed.

Lemma number_of_int_not_nan (z : Z) :
  - 2 ^ 53 < z < 2 ^ 53 -> number_isnan (number_of_int z) = false.
Proof.
  intros Hz. destruct z as [|p|p].
  - reflexivity.
  - rewrite number_of_int_pos by lia. reflexivity.
  - rewrite number_of_int_neg by lia. reflexivity.
Qed.

Lemma canon_inj (p q : positive) :
  Zpos (digits2_pos p) <= dbl_prec -> Zpos (digits2_pos q) <= dbl_prec ->
  canon p = canon q -> p = q.
Proof.
  intros Hp Hq E.
  destruct (canon_value p Hp) as [Vp _], (canon_value q Hq) as [Vq _].
  rewrite E in Vp. rewrite Vq in Vp.
  apply Z.mul_cancel_r in Vp; [congruence|].
  apply Z.pow_nonzero; [lia|].
  destruct (canon_value q Hq) as [_ Hle]. lia.
Qed.

Lemma int_of_number_of_int (z : Z) :
  0 < z <= INT_MAX -> int_of_number (number_of_int z) = z.
Proof.
  intros Hz. destruct z as [|p|p]; try lia.
  assert (Hp : Zpos p < 2 ^ 53) by (unfold INT_MAX in Hz; lia).
  rewrite number_of_int_pos by assumption.
  assert (Hd : Zpos (digits2_pos p) <= dbl_prec)
    by (apply digits2_pos_le; unfold dbl_prec; lia).
  destruct (canon_value p Hd) as [V E]. destruct (canon_digits p Hd) as [_ S].
  unfold int_of_number. rewrite V.
  assert (Q : (if 0 <=? snd (canon p)
               then Zpos p * 2 ^ (- snd (canon p)) * 2 ^ snd (canon p)
               else Zpos p * 2 ^ (- snd (canon p)) / 2 ^ (- snd (canon p))) = Zpos p).
  { destruct (Z.leb_spec 0 (snd (canon p))).
    - replace (snd (canon p)) with 0 by lia. change (2 ^ (- 0)) with 1. change (2 ^ 0) with 1. lia.
    - apply Z.div_mul. apply Z.pow_nonzero; lia. }
  rewrite Q. cbn [cond_Zopp].
  unfold INT_MIN, INT_MAX in *.
  destruct (Z.leb_spec (- 2 ^ 31) (Zpos p)); [|lia].
  destruct (Z.leb_spec (Zpos p) (2 ^ 31 - 1)); [reflexivity|lia].
Qed.

Lemma SFeqb_finite_pos (m1 m2 : positive) (e1 e2 : Z) :
  SFeqb (S754_finite false m1 e1) (S754_finite false m2 e2) = true <->
  (m1, e1) = (m2, e2).
Proof.
  unfold SFeqb, SFcompare.
  destruct (Z.compare_spec e1 e2) as [E|E|E].
  - subst e2. fold (Pos.compare m1 m2).
    destruct (Pos.compare_spec m1 m2) as [F|F|F].
    + subst. split; auto.
    + split; [discriminate|]. intros H. inversion H. lia.
    + split; [discriminate|]. intros H. inversion H. lia.
  - split; [discriminate|]. intros H. inversion H. lia.
  - split; [discriminate|]. intros H. inversion H. lia.
Qed.

Lemma number_of_int_eqb (a b : Z) :
  0 < a < 2 ^ 53 -> 0 < b < 2 ^ 53 ->
  SFeqb (number_of_int a) (number_of_int b) = (a =? b).
Proof.
  intros Ha Hb.
  destruct a as [|p|p]; try lia. destruct b as [|q|q]; try lia.
  rewrite !number_of_int_pos by lia.
  assert (Hp : Zpos (digits2_pos p) <= dbl_prec) by (apply digits2_pos_le; unfold dbl_prec; lia).
  assert (Hq : Zpos (digits2_pos q) <= dbl_prec) by (apply digits2_pos_le; unfold dbl_prec; lia).
  destruct (Z.eqb_spec (Zpos p) (Zpos q)) as [E|E].
  - inversion E. subst. apply SFeqb_finite_pos. reflexivity.
  - apply Bool.not_true_is_false. intros H. apply SFeqb_finite_pos in H.
    apply E. f_equal. apply canon_inj; try assumption.
    rewrite (surjective_pairing (canon p)), (surjective_pairing (canon q)). exact H.
Qed.

Lemma iter_pos_iter {A : Type} (f : A -> A) (p : positive) (x : A) :
  iter_pos f p x = Pos.iter f x p.
Proof.
  revert x. induction p; intros x; simpl.
  - rewrite !IHp. rewrite <- !Pos.iter_swap. reflexivity.
  - rewrite !IHp. reflexivity.
  - reflexivity.
Qed.

Lemma shr_exact (k q : positive) :
  iter_pos shr_1 k {| shr_m := Zpos (Pos.iter xO q k); shr_r := false; shr_s := false |}
  = {| shr_m := Zpos q; shr_r := false; shr_s := false |}.
Proof.
  rewrite iter_pos_iter.
  induction k using Pos.peano_ind.
  - reflexivity.
  - rewrite Pos.iter_succ_r. rewrite Pos.iter_succ. cbn [shr_1 orb]. exact IHk.
Qed.

Lemma binary_round_aux_exact (s : bool) (M q : positive) (e e' n : Z) :
  Zpos (digits2_pos q) = dbl_prec -> -1074 <= e' <= 971 ->
  0 <= n -> e = e' - n -> Zpos M = Zpos q * 2 ^ n ->
  binary_round_aux dbl_prec dbl_emax s (Zpos M) e loc_Exact = S754_finite s q e'.
Proof.
  intros Hd He' Hn He HM.
  destruct n as [|k|k]; try lia.
  - assert (M = q) by (change (2 ^ 0) with 1 in HM; lia). subst M.
    replace e with e' by lia. apply binary_round_aux_canonical; assumption.
  - rewrite <- Zpos_iter_xO in HM. apply Pos2Z.inj in HM. subst M.
    assert (Hshift : fexp dbl_prec dbl_emax (Zdigits2 (Zpos (Pos.iter xO q k)) + e) - e = Zpos k).
    { unfold fexp, emin, Zdigits2. rewrite digits2_pos_iter_xO, Pos2Z.inj_add, Hd.
      unfold dbl_prec, dbl_emax. lia. }
    assert (Hshift' : fexp dbl_prec dbl_emax (Zdigits2 (Zpos q) + e') - e' = 0).
    { unfold fexp, emin, Zdigits2. rewrite Hd. unfold dbl_prec, dbl_emax. lia. }
    unfold binary_round_aux, shr_fexp.
    rewrite Hshift. cbn [shr shr_record_of_loc]. rewrite shr_exact.
    cbn [shr_m loc_of_shr_record round_nearest_even].
    replace (e + Zpos k) with e' by lia.
    rewrite Hshift'. cbn [shr shr_record_of_loc shr_m].
    replace (dbl_emax - dbl_prec) with 971 by reflexivity.
    destruct (Z.leb_spec e' 971); [reflexivity | lia].
Qed.

Lemma shl_align_value (m : positive) (e e' : Z) :
  e' <= e -> Zpos (fst (shl_align m e e')) = Zpos m * 2 ^ (e - e').
Proof.
  intros H. unfold shl_align.
  destruct (e' - e) as [|d|d] eqn:E; cbn [fst]; try lia.
  - replace (e - e') with 0 by lia. change (2 ^ 0) with 1. lia.
  - rewrite Zpos_iter_xO. f_equal. f_equal. lia.
Qed.

Lemma binary_round_scaled (s : bool) (p M : positive) :
  Zpos (digits2_pos p) <= dbl_prec -> Zpos M = Zpos p * 2 ^ 52 ->
  binary_round dbl_prec dbl_emax s M (-52) = S754_finite s (fst (canon p)) (snd (canon p)).
Proof.
  intros Hd HM.
  change (2 ^ 52) with (2 ^ Zpos 52) in HM. rewrite <- Zpos_iter_xO in HM.
  apply Pos2Z.inj in HM.
  assert (HdM : Zpos (digits2_pos M) = Zpos (digits2_pos p) + 52).
  { subst M. rewrite digits2_pos_iter_xO. lia. }
  destruct (canon_digits p Hd) as [C1 C2]. destruct (canon_value p Hd) as [V1 V2].
  unfold binary_round.
  replace (fexp dbl_prec dbl_emax (Zpos (digits2_pos M) + -52))
    with (Zpos (digits2_pos p) - dbl_prec)
    by (unfold fexp, emin, dbl_prec, dbl_emax in *; lia).
  unfold shl_align.
  destruct (Zpos (digits2_pos p) - dbl_prec - -52) as [|d|d] eqn:E;
    try (unfold dbl_prec in E; lia).
  - apply binary_round_aux_exact with (n := 0); unfold dbl_prec in *; try lia.
    rewrite V1, Z.mul_1_r. subst M. rewrite Zpos_iter_xO.
    f_equal. f_equal. lia.
  - apply binary_round_aux_exact with (n := Zpos d); unfold dbl_prec in *; try lia.
    rewrite V1, <- Z.mul_assoc, <- Z.pow_add_r by lia. subst M. rewrite Zpos_iter_xO.
    f_equal. f_equal. lia.
Qed.

Lemma number_succ_of_int (z : Z) :
  0 < z -> z + 1 < 2 ^ 53 -> number_succ (number_of_int z) = number_of_int (z + 1).
Proof.
  intros Hz Hz1. destruct z as [|p|p]; try lia.
  assert (Hd : Zpos (digits2_pos p) <= dbl_prec)
    by (apply digits2_pos_le; unfold dbl_prec; lia).
  replace (Zpos p + 1) with (Zpos (Pos.succ p)) by lia.
  assert (Hd' : Zpos (digits2_pos (Pos.succ p)) <= dbl_prec)
    by (apply digits2_pos_le; unfold dbl_prec; lia).
  rewrite !number_of_int_pos by lia.
  destruct (canon_digits p Hd) as [C1 C2]. destruct (canon_value p Hd) as [V1 V2].
  unfold number_succ.
  change (number_of_int 1) with (S754_finite false 4503599627370496 (-52)).
  unfold SFadd. cbn [cond_Zopp].
  assert (Hmin : Z.min (snd (canon p)) (-52) = -52) by (unfold dbl_prec in *; lia).
  rewrite Hmin.
  rewrite shl_align_value by (unfold dbl_prec in *; lia).
  rewrite shl_align_value by lia.
  rewrite V1, <- Z.mul_assoc, <- Z.pow_add_r by (unfold dbl_prec in *; lia).
  replace (- snd (canon p) + (snd (canon p) - -52)) with 52 by lia.
  replace (-52 - -52) with 0 by lia.
  assert (HM : exists M, Zpos p * 2 ^ 52 + 4503599627370496 * 2 ^ 0 = Zpos M
                         /\ Zpos M = Zpos (Pos.succ p) * 2 ^ 52).
  { exists (Pos.succ p * 4503599627370496)%positive.
    change (2 ^ 52) with 4503599627370496. change (2 ^ 0) with 1. lia. }
  destruct HM as [M [E1 E2]]. rewrite E1.
  unfold binary_normalize. apply binary_round_scaled; assumption.
Qed.

(* ================================================================== *)
(** * Tables keyed by integers *)

Arguments number_of_int : simpl never.
Arguments number_succ : simpl never.
Arguments int_of_number : simpl never.
Arguments int_succ : simpl never.

Lemma INT_MAX_small : INT_MAX + 1 < 2 ^ 53.
Proof. unfold INT_MAX. lia. Qed.

Lemma int_succ_small (i : Z) : INT_MIN <= i < INT_MAX -> int_succ i = i + 1.
Proof.
  unfold int_succ, wrap_int, INT_MIN, INT_MAX. intros H.
  rewrite Z.mod_small; lia.
Qed.

Lemma int_succ_range (i : Z) : INT_MIN <= int_succ i <= INT_MAX.
Proof.
  unfold int_succ, wrap_int, INT_MIN, INT_MAX.
  pose proof (Z.mod_pos_bound (i + 1 + 2 ^ 31) (2 ^ 32)). lia.
Qed.

Lemma rawequal_int (a b : Z) :
  0 < a < 2 ^ 53 -> 0 < b < 2 ^ 53 ->
  lua_rawequal (LNumber (number_of_int a)) (LNumber (number_of_int b)) = (a =? b).
Proof. intros Ha Hb. simpl. apply number_of_int_eqb; assumption. Qed.

Lemma int_keyed_insert (hi i : Z) (t : Table) (x : TValue) :
  int_keyed hi t -> 0 < i <= hi ->
  int_keyed hi (luaH_insert t (LNumber (number_of_int i)) x).
Proof.
  intros Ht Hi. induction Ht as [|[k v] t' Hk Ht' IH]; simpl.
  - constructor; [|constructor]. exists i. auto.
  - destruct (lua_rawequal k (LNumber (number_of_int i))); constructor; assumption.
Qed.

Lemma int_keyed_remove (hi : Z) (k : TValue) (t : Table) :
  int_keyed hi t -> int_keyed hi (luaH_remove t k).
Proof.
  intros Ht. induction Ht as [|[k' v] t' Hk Ht' IH]; simpl.
  - constructor.
  - destruct (lua_rawequal k' k); [assumption | constructor; assumption].
Qed.

Lemma int_keyed_set (hi i : Z) (t : Table) (x : TValue) :
  int_keyed hi t -> 0 < i <= hi ->
  int_keyed hi (luaH_set t (LNumber (number_of_int i)) x).
Proof.
  intros Ht Hi. unfold luaH_set. destruct (ttisnil x).
  - apply int_keyed_remove; assumption.
  - apply int_keyed_insert; assumption.
Qed.

Lemma luaH_getnum_insert (hi i n : Z) (t : Table) (x : TValue) :
  int_keyed hi t -> hi < 2 ^ 53 -> 0 < i <= hi -> 0 < n < 2 ^ 53 ->
  luaH_getnum (luaH_insert t (LNumber (number_of_int i)) x) n =
  if i =? n then x else luaH_getnum t n.
Proof.
  intros Ht Hhi Hi Hn. unfold luaH_getnum.
  induction Ht as [|[k v] t' Hk Ht' IH].
  - cbn [luaH_insert luaH_get]. rewrite rawequal_int by lia. reflexivity.
  - destruct Hk as [j [Hj Ek]]. cbn [fst] in Ek. subst k.
    cbn [luaH_insert luaH_get].
    rewrite (rawequal_int j i) by lia.
    destruct (Z.eqb_spec j i) as [E|E]; cbn [luaH_get]; rewrite (rawequal_int j n) by lia.
    + subst j. destruct (i =? n); reflexivity.
    + rewrite IH. destruct (Z.eqb_spec j n), (Z.eqb_spec i n); try reflexivity; lia.
Qed.

Lemma luaH_getnum_remove (hi i n : Z) (t : Table) :
  int_keyed hi t -> hi < 2 ^ 53 -> 0 < i <= hi -> 0 < n < 2 ^ 53 ->
  luaH_getnum (luaH_remove t (LNumber (number_of_int i))) n =
  if i =? n then LNil else luaH_getnum t n.
Proof.
  intros Ht Hhi Hi Hn. unfold luaH_getnum.
  induction Ht as [|[k v] t' Hk Ht' IH].
  - cbn [luaH_remove luaH_get]. destruct (i =? n); reflexivity.
  - destruct Hk as [j [Hj Ek]]. cbn [fst] in Ek. subst k.
    cbn [luaH_remove luaH_get].
    rewrite (rawequal_int j i) by lia.
    destruct (Z.eqb_spec j i) as [E|E].
    + subst j. rewrite IH. rewrite (rawequal_int i n) by lia.
      destruct (i =? n); reflexivity.
    + cbn [luaH_get]. rewrite (rawequal_int j n) by lia. rewrite IH.
      destruct (Z.eqb_spec j n), (Z.eqb_spec i n); try reflexivity; lia.
Qed.

Lemma luaH_getnum_set (hi i n : Z) (t : Table) (x : TValue) :
  int_keyed hi t -> hi < 2 ^ 53 -> 0 < i <= hi -> 0 < n < 2 ^ 53 ->
  luaH_getnum (luaH_set t (LNumber (number_of_int i)) x) n =
  if i =? n then x else luaH_getnum t n.
Proof.
  intros Ht Hhi Hi Hn. unfold luaH_set. destruct x; cbn [ttisnil];
    try (apply luaH_getnum_insert with (hi := hi); assumption).
  apply luaH_getnum_remove with (hi := hi); assumption.
Qed.

(** Outside the range the loop stores at, the table is as before. *)
Lemma int_table_get_outside (xs : list TValue) :
  forall (t : Table) (i n : Z),
    int_keyed INT_MAX t -> 0 < i -> i + Z.of_nat (List.length xs) <= INT_MAX + 1 ->
    0 < n < 2 ^ 53 -> (n < i \/ i + Z.of_nat (List.length xs) <= n) ->
    luaH_getnum (int_table t i xs) n = luaH_getnum t n.
Proof.
  pose proof INT_MAX_small as Hsmall.
  induction xs as [|x xs' IH]; intros t i n Ht Hi Hlen Hn Hout.
  - reflexivity.
  - cbn [int_table]. cbn [List.length] in Hlen, Hout. rewrite Nat2Z.inj_succ in Hlen, Hout.
    assert (Hset : luaH_getnum (luaH_set t (LNumber (number_of_int i)) x) n = luaH_getnum t n).
    { rewrite luaH_getnum_set with (hi := INT_MAX) by (try assumption; lia).
      destruct (Z.eqb_spec i n); [lia | reflexivity]. }
    destruct xs' as [|x' xs''].
    + cbn [int_table]. exact Hset.
    + cbn [List.length] in Hlen, Hout. rewrite Nat2Z.inj_succ in Hlen, Hout.
      rewrite int_succ_small by (unfold INT_MIN; lia).
      rewrite IH; try lia.
      * exact Hset.
      * apply int_keyed_set; [assumption | lia].
      * cbn [List.length]. rewrite Nat2Z.inj_succ. lia.
      * cbn [List.length]. rewrite Nat2Z.inj_succ. lia.
Qed.

(** The [k]-th value the loop stores is found at key [i + k]. *)
Lemma int_table_get_inside (xs : list TValue) :
  forall (t : Table) (i : Z) (k : nat) (x : TValue),
    int_keyed INT_MAX t -> 0 < i -> i + Z.of_nat (List.length xs) <= INT_MAX + 1 ->
    nth_error xs k = Some x ->
    luaH_getnum (int_table t i xs) (i + Z.of_nat k) = x.
Proof.
  pose proof INT_MAX_small as Hsmall.
  induction xs as [|x0 xs' IH]; intros t i k x Ht Hi Hlen Hk.
  - destruct k; discriminate.
  - cbn [int_table]. cbn [List.length] in Hlen. rewrite Nat2Z.inj_succ in Hlen.
    assert (Ht' : int_keyed INT_MAX (luaH_set t (LNumber (number_of_int i)) x0))
      by (apply int_keyed_set; [assumption | lia]).
    destruct k as [|k'].
    + injection Hk as Hk. subst x0. rewrite Z.add_0_r.
      destruct xs' as [|x' xs''].
      * cbn [int_table]. rewrite luaH_getnum_set with (hi := INT_MAX) by (try assumption; lia).
        rewrite Z.eqb_refl. reflexivity.
      * cbn [List.length] in Hlen. rewrite Nat2Z.inj_succ in Hlen.
        rewrite int_succ_small by (unfold INT_MIN; lia).
        rewrite int_table_get_outside; try assumption; try lia.
        -- rewrite luaH_getnum_set with (hi := INT_MAX) by (try assumption; lia).
           rewrite Z.eqb_refl. reflexivity.
        -- cbn [List.length]. rewrite Nat2Z.inj_succ. lia.
    + cbn [nth_error] in Hk.
      destruct xs' as [|x' xs'']; [destruct k'; discriminate|].
      cbn [List.length] in Hlen. rewrite Nat2Z.inj_succ in Hlen.
      rewrite int_succ_small by (unfold INT_MIN; lia).
      replace (i + Z.of_nat (S k')) with (i + 1 + Z.of_nat k') by lia.
      apply IH; try assumption; try lia.
      cbn [List.length]. rewrite Nat2Z.inj_succ. lia.
Qed.

(** Counting in [lua_Number] and converting back gives the same keys as
    counting in [int]. *)
Lemma number_table_int_table (xs : list TValue) :
  forall (t : Table) (i : Z),
    0 < i -> i + Z.of_nat (List.length xs) <= INT_MAX + 1 ->
    number_table t (number_of_int i) xs = int_table t i xs.
Proof.
  pose proof INT_MAX_small as Hsmall.
  induction xs as [|x xs' IH]; intros t i Hi Hlen.
  - reflexivity.
  - cbn [number_table int_table]. cbn [List.length] in Hlen. rewrite Nat2Z.inj_succ in Hlen.
    rewrite int_of_number_of_int by lia.
    destruct xs' as [|x' xs'']; [reflexivity|].
    cbn [List.length] in Hlen. rewrite Nat2Z.inj_succ in Hlen.
    rewrite number_succ_of_int by lia.
    rewrite int_succ_small by (unfold INT_MIN; lia).
    apply IH; [lia|]. cbn [List.length]. rewrite Nat2Z.inj_succ. lia.
Qed.

Lemma int_keyed_nil (hi : Z) : int_keyed hi [].
Proof. constructor. Qed.


(* ================================================================== *)
(** * Reasoning about calls by the stack prefix they rewrite *)

Lemma set_stack_same (L : Process) : set_stack L (stack L) = L.
Proof. destruct L; reflexivity. Qed.

Lemma runs_push (c : M) (x : TValue) :
  runs c [] [x] <-> forall L, c L = Normal (lua_push x L).
Proof.
  split.
  - intros H L. apply (H L (stack L)). reflexivity.
  - intros H L s E. rewrite H. unfold lua_push. rewrite E. reflexivity.
Qed.

Lemma runs_ret (pre : list TValue) : runs ret pre pre.
Proof. intros L s E. unfold ret. rewrite <- E, set_stack_same. reflexivity. Qed.

Lemma runs_seq (c1 c2 : M) (pre mid post : list TValue) :
  runs c1 pre mid -> runs c2 mid post -> runs (c1 ;; c2) pre post.
Proof.
  intros H1 H2 L s E. unfold seq. rewrite (H1 L s E).
  rewrite (H2 (set_stack L (mid ++ s)) s eq_refl). reflexivity.
Qed.

Lemma runs_frame (c : M) (pre post frame : list TValue) :
  runs c pre post -> runs c (pre ++ frame) (post ++ frame).
Proof.
  intros H L s E. rewrite <- !app_assoc in *. apply H. assumption.
Qed.

Lemma unwinds_frame (c : M) (pre frame : list TValue) :
  unwinds c pre -> unwinds c (pre ++ frame).
Proof.
  intros [e [junk H]]. exists e, (junk ++ frame). intros L s E.
  rewrite <- !app_assoc in *. apply H. assumption.
Qed.

Lemma unwinds_seq_l (c1 c2 : M) (pre : list TValue) :
  unwinds c1 pre -> unwinds (c1 ;; c2) pre.
Proof.
  intros [e [junk H]]. exists e, junk. intros L s E.
  unfold seq. rewrite (H L s E). reflexivity.
Qed.

Lemma unwinds_seq_r (c1 c2 : M) (pre mid : list TValue) :
  runs c1 pre mid -> unwinds c2 mid -> unwinds (c1 ;; c2) pre.
Proof.
  intros H1 [e [junk H2]]. exists e, junk. intros L s E.
  unfold seq. rewrite (H1 L s E).
  rewrite (H2 (set_stack L (mid ++ s)) s eq_refl). reflexivity.
Qed.

(** A call that returns on some stack does not unwind on it. *)
Lemma runs_not_unwinds (c : M) (pre post : list TValue) :
  runs c pre post -> unwinds c pre -> False.
Proof.
  intros H1 [e [junk H2]].
  pose (L := set_stack empty_process (pre ++ [])).
  specialize (H1 L [] eq_refl). specialize (H2 L [] eq_refl). congruence.
Qed.

Lemma runs_deterministic (c : M) (pre post post' : list TValue) :
  runs c pre post -> runs c pre post' -> post = post'.
Proof.
  intros H1 H2.
  pose (L := set_stack empty_process (pre ++ [])).
  specialize (H1 L [] eq_refl). specialize (H2 L [] eq_refl).
  rewrite H1 in H2. injection H2 as H2. rewrite !app_nil_r in H2. exact H2.
Qed.

(** ** The primitives *)

Lemma runs_lua_pushnumber (n : lua_Number) : runs (lua_pushnumber n) [] [LNumber n].
Proof. apply runs_push. reflexivity. Qed.

Lemma runs_lua_pushnil : runs lua_pushnil [] [LNil].
Proof. apply runs_push. reflexivity. Qed.

Lemma runs_lua_createtable (narr nrec : Z) : runs (lua_createtable narr nrec) [] [LTable []].
Proof. apply runs_push. reflexivity. Qed.

Lemma runs_lua_pushelement (p : pointer) :
  runs (lua_pushelement p) [] [if p =? nullptr then LNil else LUserdata (UElement p)].
Proof. apply runs_push. intros L. unfold lua_pushelement. destruct (p =? nullptr); reflexivity. Qed.

Lemma index2adr_2 (a b : TValue) (s : list TValue) :
  index2adr (a :: b :: s) (-2) = Some 1%nat.
Proof.
  unfold index2adr. change (-2 <? 0) with true. cbv iota.
  destruct (Z.leb_spec (- -2) (Z.of_nat (List.length (a :: b :: s)))) as [_|H].
  - reflexivity.
  - cbn [List.length] in H. lia.
Qed.

Lemma index2adr_3 (a b c : TValue) (s : list TValue) :
  index2adr (a :: b :: c :: s) (-3) = Some 2%nat.
Proof.
  unfold index2adr. change (-3 <? 0) with true. cbv iota.
  destruct (Z.leb_spec (- -3) (Z.of_nat (List.length (a :: b :: c :: s)))) as [_|H].
  - reflexivity.
  - cbn [List.length] in H. lia.
Qed.

Lemma runs_lua_rawseti (n : Z) (x : TValue) (t : Table) :
  runs (lua_rawseti (-2) n) [x; LTable t] [LTable (luaH_set t (LNumber (number_of_int n)) x)].
Proof.
  intros L s E. unfold lua_rawseti. rewrite E. cbn [app].
  rewrite index2adr_2. unfold store_and_pop. rewrite E. reflexivity.
Qed.

Lemma runs_lua_settable (k x : TValue) (t : Table) :
  valid_key k = true ->
  runs (lua_settable (-3)) [x; k; LTable t] [LTable (luaH_set t k x)].
Proof.
  intros Hk L s E. unfold lua_settable. rewrite E. cbn [app].
  rewrite index2adr_3.
  assert (R : store_and_pop L 2 k x 2 = Normal (set_stack L ([LTable (luaH_set t k x)] ++ s))).
  { unfold store_and_pop. rewrite E. reflexivity. }
  destruct k; try exact R; try discriminate.
  cbn [valid_key] in Hk. destruct (number_isnan n); [discriminate | exact R].
Qed.

Lemma unwinds_lua_settable (k x : TValue) (t : Table) :
  valid_key k = false ->
  unwinds (lua_settable (-3)) [x; k; LTable t].
Proof.
  intros Hk. destruct k; try discriminate.
  - exists (lua_error "table index is nil"), [x; LNil; LTable t]. intros L s E.
    cbn [app] in *. unfold lua_settable. rewrite E, index2adr_3.
    rewrite <- E, set_stack_same. reflexivity.
  - exists (lua_error "table index is NaN"), [x; LNumber n; LTable t]. intros L s E.
    cbn [app] in *. unfold lua_settable. rewrite E, index2adr_3.
    cbn [valid_key] in Hk. destruct (number_isnan n); [|discriminate].
    rewrite <- E, set_stack_same. reflexivity.
Qed.

Lemma valid_key_int (i : Z) :
  INT_MIN <= i <= INT_MAX -> valid_key (LNumber (number_of_int i)) = true.
Proof.
  intros H. cbn [valid_key]. rewrite number_of_int_not_nan; [reflexivity|].
  unfold INT_MIN, INT_MAX in H. lia.
Qed.

(** ** The loops of the composite pushers *)

(** One more call of a sequence: [above frame H] runs the call of [H], which
    expects nothing of the stack, above the slots [frame]; [next H] runs
    the call of [H] as it is. *)
Ltac next H :=
  first [ apply runs_seq with (1 := H) | apply unwinds_seq_r with (1 := H) ].

Ltac above frame H :=
  let H' := fresh in
  pose proof (runs_frame _ _ _ frame H) as H'; cbn [app] in H'; next H'; clear H'.

Ltac unwinds_above frame H :=
  apply unwinds_seq_l; apply (unwinds_frame _ [] frame); exact H.

Section Loops.
Context {A : Type}.
Variable push : A -> M.

Lemma array_loop_runs (val : list A) (xs : list TValue) :
  Forall2 (fun v x => runs (push v) [] [x]) val xs ->
  forall (i : lua_Number) (t : Table),
    runs (array_loop push i val) [LTable t] [LTable (number_table t i xs)].
Proof.
  induction 1 as [|v x val' xs' Hv Hrest IH]; intros i t.
  - apply runs_ret.
  - cbn [array_loop number_table].
    above [LTable t] Hv. next (runs_lua_rawseti (int_of_number i) x t). apply IH.
Qed.

Lemma array_loop_shape (val : list A) :
  Forall (fun v => pushes_or_unwinds (push v)) val ->
  forall (i : lua_Number) (t : Table),
    (Forall (fun v => exists x, runs (push v) [] [x]) val /\
     exists t', runs (array_loop push i val) [LTable t] [LTable t']) \/
    unwinds (array_loop push i val) [LTable t].
Proof.
  induction 1 as [|v val' Hv Hrest IH]; intros i t.
  - left. split; [constructor|]. exists t. apply runs_ret.
  - cbn [array_loop]. destruct Hv as [[x Hx]|Hu].
    2:{ right. unwinds_above [LTable t] Hu. }
    pose proof (runs_lua_rawseti (int_of_number i) x t) as Hset.
    destruct (IH (number_succ i) (luaH_set t (LNumber (number_of_int (int_of_number i))) x))
      as [[Hall [t' Ht']]|Hu'].
    + left. split; [constructor; eauto|]. exists t'.
      above [LTable t] Hx. next Hset. exact Ht'.
    + right. above [LTable t] Hx. next Hset. exact Hu'.
Qed.

Lemma vector_loop_runs (val : list A) (xs : list TValue) :
  Forall2 (fun v x => runs (push v) [] [x]) val xs ->
  forall (i : Z) (t : Table),
    INT_MIN <= i <= INT_MAX ->
    runs (vector_loop push i val) [LTable t] [LTable (int_table t i xs)].
Proof.
  induction 1 as [|v x val' xs' Hv Hrest IH]; intros i t Hi.
  - apply runs_ret.
  - cbn [vector_loop int_table].
    above [LTable t] (runs_lua_pushnumber (number_of_int i)).
    above [LNumber (number_of_int i); LTable t] Hv.
    next (runs_lua_settable _ x t (valid_key_int i Hi)).
    apply IH. apply int_succ_range.
Qed.

Lemma vector_loop_shape (val : list A) :
  Forall (fun v => pushes_or_unwinds (push v)) val ->
  forall (i : Z) (t : Table),
    INT_MIN <= i <= INT_MAX ->
    (Forall (fun v => exists x, runs (push v) [] [x]) val /\
     exists t', runs (vector_loop push i val) [LTable t] [LTable t']) \/
    unwinds (vector_loop push i val) [LTable t].
Proof.
  induction 1 as [|v val' Hv Hrest IH]; intros i t Hi.
  - left. split; [constructor|]. exists t. apply runs_ret.
  - cbn [vector_loop].
    pose proof (runs_lua_pushnumber (number_of_int i)) as Hkey.
    destruct Hv as [[x Hx]|Hu].
    2:{ right. above [LTable t] Hkey.
        unwinds_above [LNumber (number_of_int i); LTable t] Hu. }
    pose proof (runs_lua_settable _ x t (valid_key_int i Hi)) as Hset.
    destruct (IH (int_succ i) (luaH_set t (LNumber (number_of_int i)) x) (int_succ_range i))
      as [[Hall [t' Ht']]|Hu'].
    + left. split; [constructor; eauto|]. exists t'.
      above [LTable t] Hkey. above [LNumber (number_of_int i); LTable t] Hx.
      next Hset. exact Ht'.
    + right.
      above [LTable t] Hkey. above [LNumber (number_of_int i); LTable t] Hx.
      next Hset. exact Hu'.
Qed.
End Loops.

Section MapLoop.
Context {A B : Type}.
Variable pushK : A -> M.
Variable pushV : B -> M.

Lemma map_loop_runs (val : list (A * B)) :
  Forall (fun kv => (exists k, runs (pushK (fst kv)) [] [k] /\ valid_key k = true) /\
                    (exists x, runs (pushV (snd kv)) [] [x])) val ->
  forall t : Table, exists t', runs (map_loop pushK pushV val) [LTable t] [LTable t'].
Proof.
  induction 1 as [|[k v] val' [[xk [Hk Hvalid]] [xv Hv]] Hrest IH]; intros t.
  - exists t. apply runs_ret.
  - cbn [fst snd] in *. destruct (IH (luaH_set t xk xv)) as [t' Ht'].
    exists t'. cbn [map_loop].
    above [LTable t] Hk. above [xk; LTable t] Hv.
    next (runs_lua_settable xk xv t Hvalid). exact Ht'.
Qed.

Lemma map_loop_shape (val : list (A * B)) :
  Forall (fun kv => pushes_or_unwinds (pushK (fst kv)) /\
                    pushes_or_unwinds (pushV (snd kv))) val ->
  forall t : Table,
    (Forall (fun kv => (exists k, runs (pushK (fst kv)) [] [k] /\ valid_key k = true) /\
                       (exists x, runs (pushV (snd kv)) [] [x])) val /\
     exists t', runs (map_loop pushK pushV val) [LTable t] [LTable t']) \/
    unwinds (map_loop pushK pushV val) [LTable t].
Proof.
  induction 1 as [|[k v] val' [Hk Hv] Hrest IH]; intros t.
  - left. split; [constructor|]. exists t. apply runs_ret.
  - cbn [fst snd] in *. cbn [map_loop].
    destruct Hk as [[xk Hk]|Hk].
    2:{ right. unwinds_above [LTable t] Hk. }
    destruct Hv as [[xv Hv]|Hv].
    2:{ right. above [LTable t] Hk. unwinds_above [xk; LTable t] Hv. }
    destruct (valid_key xk) eqn:Hvalid.
    2:{ right. above [LTable t] Hk. above [xk; LTable t] Hv.
        apply unwinds_seq_l. apply unwinds_lua_settable. exact Hvalid. }
    pose proof (runs_lua_settable xk xv t Hvalid) as Hset.
    destruct (IH (luaH_set t xk xv)) as [[Hall [t' Ht']]|Hu].
    + left. split; [constructor; [cbn [fst snd]; eauto | exact Hall]|]. exists t'.
      above [LTable t] Hk. above [xk; LTable t] Hv. next Hset. exact Ht'.
    + right. above [LTable t] Hk. above [xk; LTable t] Hv. next Hset. exact Hu.
Qed.
End MapLoop.

Section HeterogeneousLoops.
Context {A : Type}.
Variable F : A -> Type.
Variable push : forall T : A, F T -> M.

Lemma tuple_fold_runs (Ts : list A) :
  forall (values : tuple_of F Ts) (xs : list TValue),
    Forall2 (fun c x => runs (push (projT1 c) (projT2 c)) [] [x])
            (tuple_components F Ts values) xs ->
    forall (key : Z) (t : Table),
      runs (tuple_fold F push Ts key values) [LTable t] [LTable (int_table t key xs)].
Proof.
  induction Ts as [|T Ts' IH]; intros values xs H key t.
  - cbn [tuple_components] in H. inversion H; subst. apply runs_ret.
  - cbn [tuple_components] in H. inversion H as [|c x cs xs' Hc Hrest]; subst.
    cbn [projT1 projT2] in Hc. cbn [tuple_fold int_table].
    above [LTable t] Hc. next (runs_lua_rawseti key x t). apply IH. exact Hrest.
Qed.

Lemma tuple_fold_shape (Ts : list A) :
  forall values : tuple_of F Ts,
    tuple_all F (fun T v => pushes_or_unwinds (push T v)) Ts values ->
    forall (key : Z) (t : Table),
      (tuple_all F (fun T v => exists x, runs (push T v) [] [x]) Ts values /\
       exists t', runs (tuple_fold F push Ts key values) [LTable t] [LTable t']) \/
      unwinds (tuple_fold F push Ts key values) [LTable t].
Proof.
  induction Ts as [|T Ts' IH]; intros values H key t.
  - left. split; [exact I|]. exists t. apply runs_ret.
  - cbn [tuple_all] in H. destruct H as [Hv Hrest]. cbn [tuple_fold].
    destruct Hv as [[x Hx]|Hu].
    2:{ right. unwinds_above [LTable t] Hu. }
    pose proof (runs_lua_rawseti key x t) as Hset.
    destruct (IH (snd values) Hrest (int_succ key)
                 (luaH_set t (LNumber (number_of_int key)) x)) as [[Hall [t' Ht']]|Hu].
    + left. split; [split; [eauto | exact Hall]|]. exists t'.
      above [LTable t] Hx. next Hset. exact Ht'.
    + right. above [LTable t] Hx. next Hset. exact Hu.
Qed.

Lemma tuple_all_impl (P Q : forall T : A, F T -> Prop) (Ts : list A) :
  Forall (fun T => forall v : F T, P T v -> Q T v) Ts ->
  forall values : tuple_of F Ts, tuple_all F P Ts values -> tuple_all F Q Ts values.
Proof.
  induction 1 as [|T Ts' HT Hrest IH]; intros values H.
  - exact I.
  - destruct H as [H1 H2]. split; [apply HT; exact H1 | apply IH; exact H2].
Qed.

Lemma tuple_all_intro (Q : forall T : A, F T -> Prop) (Ts : list A) :
  Forall (fun T => forall v : F T, Q T v) Ts ->
  forall values : tuple_of F Ts, tuple_all F Q Ts values.
Proof.
  induction 1 as [|T Ts' HT Hrest IH]; intros values.
  - exact I.
  - split; [apply HT | apply IH].
Qed.

Lemma tuple_all_components (R : forall T : A, F T -> TValue -> Prop) (Ts : list A) :
  forall values : tuple_of F Ts,
    tuple_all F (fun T v => exists x, R T v x) Ts values ->
    exists xs, Forall2 (fun c x => R (projT1 c) (projT2 c) x)
                       (tuple_components F Ts values) xs.
Proof.
  induction Ts as [|T Ts' IH]; intros values H.
  - exists []. constructor.
  - destruct H as [[x Hx] Hrest]. destruct (IH (snd values) Hrest) as [xs Hxs].
    exists (x :: xs). constructor; assumption.
Qed.

Lemma tuple_components_length (Ts : list A) (values : tuple_of F Ts) :
  List.length (tuple_components F Ts values) = List.length Ts.
Proof.
  induction Ts as [|T Ts' IH]; [reflexivity|].
  cbn [tuple_components List.length]. rewrite IH. reflexivity.
Qed.
End HeterogeneousLoops.

Lemma Forall_exists_Forall2 {A B : Type} (R : A -> B -> Prop) (l : list A) :
  Forall (fun a => exists b, R a b) l -> exists bs, Forall2 R l bs.
Proof.
  induction 1 as [|a l' [b Hb] Hrest [bs Hbs]].
  - exists []. constructor.
  - exists (b :: bs). constructor; assumption.
Qed.

(* ================================================================== *)
(** * Induction over host types *)

Section HostTypeInduction.
Variable P : HostType -> Prop.
Hypothesis Hleaf : forall T,
  match T with
  | Tvariant _ | Toptional _ | Tarray _ _ | Tvector _ | Tunordered_map _ _ | Ttuple _ => True
  | _ => P T
  end.
Hypothesis Hvariant : forall Ts, Forall P Ts -> P (Tvariant Ts).
Hypothesis Hoptional : forall T, P T -> P (Toptional T).
Hypothesis Harray : forall T N, P T -> P (Tarray T N).
Hypothesis Hvector : forall T, P T -> P (Tvector T).
Hypothesis Hmap : forall K V, P K -> P V -> P (Tunordered_map K V).
Hypothesis Htuple : forall Ts, Forall P Ts -> P (Ttuple Ts).

Lemma HostType_induction : forall T, P T.
Proof.
  fix IH 1. intros T.
  destruct T;
    try (match goal with |- P ?T => exact (Hleaf T) end).
  - apply Hvariant. induction Ts as [|T Ts' IHTs]; constructor; [apply IH | exact IHTs].
  - apply Hoptional, IH.
  - apply Harray, IH.
  - apply Hvector, IH.
  - apply Hmap; apply IH.
  - apply Htuple. induction Ts as [|T Ts' IHTs]; constructor; [apply IH | exact IHTs].
Qed.
End HostTypeInduction.

(* ================================================================== *)
(** * What every overload does to the stack *)

Lemma array_elements_length {A : Type} (N : nat) (val : std_array A N) :
  List.length (array_elements N val) = N.
Proof.
  induction N as [|n IH]; [reflexivity|].
  cbn [array_elements List.length]. rewrite IH. reflexivity.
Qed.

Lemma runs_Push_CLuaArgument (arg : CLuaArgument) :
  CLuaArgument_GetType arg <> LUA_TNONE ->
  runs (Push_CLuaArgument arg) [] [m_value arg].
Proof.
  intros H. apply runs_push. intros L.
  unfold Push_CLuaArgument, CLuaArgument_Push, CLuaArgument_GetType in *.
  destruct (Z.eqb_spec (m_iType arg) LUA_TNONE); [contradiction | reflexivity].
Qed.

Lemma unwinds_Push_CLuaArgument (arg : CLuaArgument) :
  CLuaArgument_GetType arg = LUA_TNONE ->
  unwinds (Push_CLuaArgument arg) [].
Proof.
  intros H. exists (logic_error "lua::Push"), []. intros L s E.
  unfold Push_CLuaArgument. rewrite H, Z.eqb_refl.
  cbn [app] in *. rewrite <- E, set_stack_same. reflexivity.
Qed.

Lemma runs_Push_array {A : Type} (push : A -> M) (N : nat) (val : std_array A N)
      (xs : list TValue) :
  Forall2 (fun v x => runs (push v) [] [x]) (array_elements N val) xs ->
  runs (Push_array push N val) [] [LTable (number_table [] (number_of_int 1) xs)].
Proof.
  intros H. unfold Push_array.
  apply runs_seq with (mid := [LTable []]).
  - apply runs_lua_createtable.
  - apply array_loop_runs. exact H.
Qed.

Lemma runs_Push_vector {A : Type} (push : A -> M) (val : list A) (xs : list TValue) :
  Forall2 (fun v x => runs (push v) [] [x]) val xs ->
  runs (Push_vector push val) [] [LTable (int_table [] 1 xs)].
Proof.
  intros H. unfold Push_vector.
  apply runs_seq with (mid := [LTable []]).
  - apply runs_lua_createtable.
  - apply vector_loop_runs; [exact H|]. unfold INT_MIN, INT_MAX. lia.
Qed.

Lemma runs_Push_tuple {A : Type} (F : A -> Type) (push : forall T, F T -> M)
      (Ts : list A) (tuple : tuple_of F Ts) (xs : list TValue) :
  Forall2 (fun c x => runs (push (projT1 c) (projT2 c)) [] [x])
          (tuple_components F Ts tuple) xs ->
  runs (Push_tuple F push Ts tuple) [] [LTable (int_table [] 1 xs)].
Proof.
  intros H. unfold Push_tuple.
  apply runs_seq with (mid := [LTable []]).
  - apply runs_lua_createtable.
  - apply tuple_fold_runs. exact H.
Qed.

(** A loop that fills or unwinds, run on a new table, pushes the table or
    unwinds; [G] is what is known of the elements when it fills. *)
Lemma new_table_shape (G : Prop) (create loop : M) :
  runs create [] [LTable []] ->
  ((G /\ exists t', runs loop [LTable []] [LTable t']) \/ unwinds loop [LTable []]) ->
  (G /\ exists x, runs (create ;; loop) [] [x]) \/ unwinds (create ;; loop) [].
Proof.
  intros Hc [[HG [t' Ht']]|Hu].
  - left. split; [exact HG|]. exists (LTable t'). apply runs_seq with (1 := Hc). exact Ht'.
  - right. apply unwinds_seq_r with (1 := Hc). exact Hu.
Qed.

Lemma shape_forget (G : Prop) (c : M) :
  (G /\ exists x, runs c [] [x]) \/ unwinds c [] -> pushes_or_unwinds c.
Proof. intros [[_ H]|H]; [left | right]; exact H. Qed.

Lemma shape_returns (G : Prop) (c : M) (x : TValue) :
  (G /\ exists x, runs c [] [x]) \/ unwinds c [] -> runs c [] [x] -> G.
Proof.
  intros [[HG _]|Hu] Hr; [exact HG|]. destruct (runs_not_unwinds _ _ _ Hr Hu).
Qed.

Lemma Push_array_shape {A : Type} (push : A -> M) (N : nat) (val : std_array A N) :
  Forall (fun v => pushes_or_unwinds (push v)) (array_elements N val) ->
  (Forall (fun v => exists x, runs (push v) [] [x]) (array_elements N val) /\
   exists x, runs (Push_array push N val) [] [x]) \/
  unwinds (Push_array push N val) [].
Proof.
  intros H. unfold Push_array.
  apply new_table_shape; [apply runs_lua_createtable|].
  apply array_loop_shape. exact H.
Qed.

Lemma Push_vector_shape {A : Type} (push : A -> M) (val : list A) :
  Forall (fun v => pushes_or_unwinds (push v)) val ->
  (Forall (fun v => exists x, runs (push v) [] [x]) val /\
   exists x, runs (Push_vector push val) [] [x]) \/
  unwinds (Push_vector push val) [].
Proof.
  intros H. unfold Push_vector.
  apply new_table_shape; [apply runs_lua_createtable|].
  apply vector_loop_shape; [exact H|]. unfold INT_MIN, INT_MAX. lia.
Qed.

Lemma Push_unordered_map_shape {A B : Type} (pushK : A -> M) (pushV : B -> M)
      (val : list (A * B)) :
  Forall (fun kv => pushes_or_unwinds (pushK (fst kv)) /\
                    pushes_or_unwinds (pushV (snd kv))) val ->
  (Forall (fun kv => (exists k, runs (pushK (fst kv)) [] [k] /\ valid_key k = true) /\
                     (exists x, runs (pushV (snd kv)) [] [x])) val /\
   exists x, runs (Push_unordered_map pushK pushV val) [] [x]) \/
  unwinds (Push_unordered_map pushK pushV val) [].
Proof.
  intros H. unfold Push_unordered_map.
  apply new_table_shape; [apply runs_lua_createtable|].
  apply map_loop_shape. exact H.
Qed.

Lemma Push_tuple_shape {A : Type} (F : A -> Type) (push : forall T, F T -> M)
      (Ts : list A) (tuple : tuple_of F Ts) :
  tuple_all F (fun T v => pushes_or_unwinds (push T v)) Ts tuple ->
  (tuple_all F (fun T v => exists x, runs (push T v) [] [x]) Ts tuple /\
   exists x, runs (Push_tuple F push Ts tuple) [] [x]) \/
  unwinds (Push_tuple F push Ts tuple) [].
Proof.
  intros H. unfold Push_tuple.
  apply new_table_shape; [apply runs_lua_createtable|].
  apply tuple_fold_shape. exact H.
Qed.

Lemma Push_leaf_shape (T : HostType) :
  match T with
  | Tvariant _ | Toptional _ | Tarray _ _ | Tvector _ | Tunordered_map _ _ | Ttuple _ => True
  | _ => forall v : denote T, pushes_or_unwinds (Push T v)
  end.
Proof.
  destruct T; try exact I; intros v;
    try (left; eexists; apply runs_push; intros L; reflexivity).
  - (* CLuaArgument *)
    destruct (Z.eq_dec (CLuaArgument_GetType v) LUA_TNONE) as [E|E].
    + right. apply unwinds_Push_CLuaArgument. exact E.
    + left. eexists. apply runs_Push_CLuaArgument. exact E.
  - left. eexists. apply runs_lua_pushelement.
  - left. eexists. apply runs_lua_pushelement.
  - left. eexists. apply runs_lua_pushelement.
Qed.

(** Every call of [Push] either returns with exactly one more slot on the
    stack, or unwinds; which of the two, and the slot, do not depend on
    the state it is called in. *)
Lemma Push_shape (T : HostType) : forall v : denote T, pushes_or_unwinds (Push T v).
Proof.
  apply HostType_induction with (P := fun T => forall v : denote T, pushes_or_unwinds (Push T v)).
  - intros T0. pose proof (Push_leaf_shape T0) as H. destruct T0; exact H.
  - intros Ts H. induction H as [|T0 Ts' HT Hrest IH]; intros val.
    + destruct val.
    + destruct val as [value|rest]; [apply HT | apply IH].
  - intros T0 IH [value|]; cbn [Push Push_optional].
    + apply IH.
    + left. exists LNil. apply runs_lua_pushnil.
  - intros T0 N IH val. apply (shape_forget _ _ (Push_array_shape (Push T0) N val
      ltac:(apply Forall_forall; intros v _; apply IH))).
  - intros T0 IH val. apply (shape_forget _ _ (Push_vector_shape (Push T0) val
      ltac:(apply Forall_forall; intros v _; apply IH))).
  - intros K V IHK IHV val. apply (shape_forget _ _ (Push_unordered_map_shape (Push K) (Push V) val
      ltac:(apply Forall_forall; intros kv _; split; [apply IHK | apply IHV]))).
  - intros Ts H val. apply (shape_forget _ _ (Push_tuple_shape denote Push Ts val
      ltac:(apply tuple_all_intro; exact H))).
Qed.

(** A marshallable value is pushed: the call returns. *)
Lemma Push_marshallable (T : HostType) :
  forall v : denote T, marshallable T v -> exists x, runs (Push T v) [] [x].
Proof.
  apply HostType_induction
    with (P := fun T => forall v : denote T, marshallable T v -> exists x, runs (Push T v) [] [x]).
  - intros T0. destruct T0; try exact I; intros v Hv;
      try (eexists; apply runs_push; intros L; reflexivity).
    + eexists. apply runs_Push_CLuaArgument. exact Hv.
    + eexists. apply runs_lua_pushelement.
    + eexists. apply runs_lua_pushelement.
    + eexists. apply runs_lua_pushelement.
  - intros Ts H. induction H as [|T0 Ts' HT Hrest IH]; intros val Hval.
    + destruct val.
    + destruct val as [value|rest]; [apply HT | apply IH]; exact Hval.
  - intros T0 IH [value|] Hv; cbn [Push Push_optional].
    + apply IH. exact Hv.
    + exists LNil. apply runs_lua_pushnil.
  - intros T0 N IH val Hv. cbn [marshallable] in Hv.
    destruct (Forall_exists_Forall2 (fun v x => runs (Push T0 v) [] [x]) (array_elements N val))
      as [xs Hxs].
    { eapply Forall_impl; [|exact Hv]. intros v Hm. apply IH. exact Hm. }
    eexists. cbn [Push]. apply runs_Push_array. exact Hxs.
  - intros T0 IH val Hv. cbn [marshallable] in Hv.
    destruct (Forall_exists_Forall2 (fun v x => runs (Push T0 v) [] [x]) val) as [xs Hxs].
    { eapply Forall_impl; [|exact Hv]. intros v Hm. apply IH. exact Hm. }
    eexists. cbn [Push]. apply runs_Push_vector. exact Hxs.
  - intros K V IHK IHV val Hv. cbn [marshallable] in Hv.
    destruct (map_loop_runs (Push K) (Push V) val) with (t := @nil (TValue * TValue))
      as [t' Ht'].
    { eapply Forall_impl; [|exact Hv]. intros kv [_ [HmV Hkey]]. split.
      - exact Hkey.
      - apply IHV. exact HmV. }
    exists (LTable t'). cbn [Push]. unfold Push_unordered_map.
    apply runs_seq with (mid := [LTable []]); [apply runs_lua_createtable | exact Ht'].
  - intros Ts H val Hv. cbn [marshallable] in Hv.
    destruct (tuple_all_components denote (fun T v x => runs (Push T v) [] [x]) Ts val)
      as [xs Hxs].
    { revert Hv. apply tuple_all_impl. exact H. }
    eexists. cbn [Push]. apply runs_Push_tuple. exact Hxs.
Qed.

(** Conversely, a value whose push returns is marshallable: [marshallable]
    is exactly the condition under which [Push] returns. *)
Lemma Push_returns_marshallable (T : HostType) :
  forall (v : denote T) (x : TValue), runs (Push T v) [] [x] -> marshallable T v.
Proof.
  apply HostType_induction
    with (P := fun T => forall (v : denote T) (x : TValue),
                   runs (Push T v) [] [x] -> marshallable T v).
  - intros T0. destruct T0; try exact I; intros v x Hr; try exact I.
    cbn [marshallable]. intros E.
    exact (runs_not_unwinds _ _ _ Hr (unwinds_Push_CLuaArgument v E)).
  - intros Ts H. induction H as [|T0 Ts' HT Hrest IH]; intros val x Hr.
    + destruct val.
    + destruct val as [value|rest]; [exact (HT value x Hr) | exact (IH rest x Hr)].
  - intros T0 IH [value|] x Hr; [exact (IH value x Hr) | exact I].
  - intros T0 N IH val x Hr. cbn [marshallable].
    assert (Hs : Forall (fun v => pushes_or_unwinds (Push T0 v)) (array_elements N val))
      by (apply Forall_forall; intros v _; apply Push_shape).
    pose proof (shape_returns _ _ x (Push_array_shape (Push T0) N val Hs) Hr) as Hall.
    eapply Forall_impl; [|exact Hall]. intros v [xv Hv]. exact (IH v xv Hv).
  - intros T0 IH val x Hr. cbn [marshallable].
    assert (Hs : Forall (fun v => pushes_or_unwinds (Push T0 v)) val)
      by (apply Forall_forall; intros v _; apply Push_shape).
    pose proof (shape_returns _ _ x (Push_vector_shape (Push T0) val Hs) Hr) as Hall.
    eapply Forall_impl; [|exact Hall]. intros v [xv Hv]. exact (IH v xv Hv).
  - intros K V IHK IHV val x Hr. cbn [marshallable].
    assert (Hs : Forall (fun kv => pushes_or_unwinds (Push K (fst kv)) /\
                                   pushes_or_unwinds (Push V (snd kv))) val)
      by (apply Forall_forall; intros kv _; split; apply Push_shape).
    pose proof (shape_returns _ _ x (Push_unordered_map_shape (Push K) (Push V) val Hs) Hr)
      as Hall.
    eapply Forall_impl; [|exact Hall]. intros kv [[k [Hk Hvalid]] [xv Hv]].
    split; [exact (IHK _ k Hk)|]. split; [exact (IHV _ xv Hv)|].
    exists k. split; assumption.
  - intros Ts H val x Hr. cbn [marshallable].
    assert (Hs : tuple_all denote (fun T v => pushes_or_unwinds (Push T v)) Ts val)
      by (apply tuple_all_intro; apply Forall_forall; intros T0 _; apply Push_shape).
    pose proof (shape_returns _ _ x (Push_tuple_shape denote Push Ts val Hs) Hr) as Hall.
    revert Hall. apply tuple_all_impl.
    eapply Forall_impl; [|exact H]. intros T0 HT v [xv Hv]. exact (HT v xv Hv).
Qed.

(* ================================================================== *)
(** * Where the elements of a sequence end up *)

Lemma Forall2_nth_error_l {A B : Type} (R : A -> B -> Prop) (l : list A) (l' : list B) :
  Forall2 R l l' ->
  forall k a, nth_error l k = Some a -> exists b, nth_error l' k = Some b /\ R a b.
Proof.
  induction 1 as [|a0 b0 l0 l0' H0 Hrest IH]; intros k a Hk.
  - destruct k; discriminate.
  - destruct k as [|k'].
    + injection Hk as Hk. subst. exists b0. split; [reflexivity | assumption].
    + apply IH. exact Hk.
Qed.

Lemma Forall2_nth_error_r {A B : Type} (R : A -> B -> Prop) (l : list A) (l' : list B) :
  Forall2 R l l' ->
  forall k b, nth_error l' k = Some b -> exists a, nth_error l k = Some a /\ R a b.
Proof.
  induction 1 as [|a0 b0 l0 l0' H0 Hrest IH]; intros k b Hk.
  - destruct k; discriminate.
  - destruct k as [|k'].
    + injection Hk as Hk. subst. exists a0. split; [reflexivity | assumption].
    + apply IH. exact Hk.
Qed.

Lemma sequence_lookup {A : Type} (push : A -> M) (val : list A) (xs : list TValue) :
  Forall2 (fun v x => runs (push v) [] [x]) val xs ->
  Z.of_nat (List.length val) <= INT_MAX ->
  forall k e, nth_error val k = Some e ->
    exists x, runs (push e) [] [x] /\ luaH_getnum (int_table [] 1 xs) (Z.of_nat k + 1) = x.
Proof.
  intros H Hlen k e Hk.
  destruct (Forall2_nth_error_l _ _ _ H k e Hk) as [x [Hx Hr]].
  exists x. split; [exact Hr|].
  rewrite Z.add_comm. apply int_table_get_inside; try assumption.
  - apply int_keyed_nil.
  - lia.
  - rewrite <- (Forall2_length H). lia.
Qed.

Lemma sequence_end (xs : list TValue) :
  Z.of_nat (List.length xs) <= INT_MAX ->
  luaH_getnum (int_table [] 1 xs) (Z.of_nat (List.length xs) + 1) = LNil.
Proof.
  intros Hlen. pose proof INT_MAX_small.
  rewrite int_table_get_outside; try lia.
  - reflexivity.
  - apply int_keyed_nil.
Qed.

Lemma sequence_border (xs : list TValue) :
  Z.of_nat (List.length xs) <= INT_MAX ->
  Forall (fun x => x <> LNil) xs ->
  forall n, is_border (int_table [] 1 xs) n <-> n = Z.of_nat (List.length xs).
Proof.
  intros Hlen Hnn n. pose proof INT_MAX_small as Hsmall. split.
  - intros [Hn [Hat Hnext]].
    destruct (Z.lt_trichotomy n (Z.of_nat (List.length xs))) as [Hlt|[Heq|Hgt]];
      [exfalso | exact Heq | exfalso].
    + destruct (nth_error xs (Z.to_nat n)) as [x|] eqn:E.
      * assert (Hx : luaH_getnum (int_table [] 1 xs) (1 + Z.of_nat (Z.to_nat n)) = x).
        { apply int_table_get_inside; try assumption; try lia. apply int_keyed_nil. }
        rewrite Z2Nat.id in Hx by lia. rewrite Z.add_comm in Hx.
        rewrite Hnext in Hx. subst x.
        apply nth_error_In in E. rewrite Forall_forall in Hnn.
        exact (Hnn LNil E eq_refl).
      * apply nth_error_None in E. lia.
    + destruct Hat as [H0|Hat]; [lia|]. apply Hat.
      rewrite int_table_get_outside; try lia.
      * reflexivity.
      * apply int_keyed_nil.
  - intros ->. split; [lia|]. split.
    + destruct xs as [|x0 xs0] eqn:E; [left; reflexivity|]. right. rewrite <- E in *.
      assert (Hk : exists x, nth_error xs (List.length xs - 1) = Some x).
      { destruct (nth_error xs (List.length xs - 1)) as [x|] eqn:E'; [eauto|].
        apply nth_error_None in E'. subst xs. cbn [List.length] in E'. lia. }
      destruct Hk as [x Hx].
      assert (Hget : luaH_getnum (int_table [] 1 xs) (1 + Z.of_nat (List.length xs - 1)) = x).
      { apply int_table_get_inside; try assumption; try lia. apply int_keyed_nil. }
      replace (1 + Z.of_nat (List.length xs - 1)) with (Z.of_nat (List.length xs)) in Hget
        by (subst xs; cbn [List.length]; lia).
      rewrite Hget. apply nth_error_In in Hx. rewrite Forall_forall in Hnn.
      apply Hnn. exact Hx.
    + apply sequence_end. exact Hlen.
Qed.

Lemma marshallable_elements (T : HostType) (val : list (denote T)) :
  Forall (marshallable T) val ->
  exists xs, Forall2 (fun v x => runs (Push T v) [] [x]) val xs.
Proof.
  intros H. apply Forall_exists_Forall2.
  eapply Forall_impl; [|exact H]. intros v Hv. apply Push_marshallable. exact Hv.
Qed.

Lemma marshallable_components (Ts : list HostType) (tuple : tuple_of denote Ts) :
  tuple_all denote marshallable Ts tuple ->
  exists xs, Forall2 (fun c x => runs (Push (projT1 c) (projT2 c)) [] [x])
                     (tuple_components denote Ts tuple) xs.
Proof.
  intros H.
  apply (tuple_all_components denote (fun T v x => runs (Push T v) [] [x])).
  revert H. apply tuple_all_impl.
  apply Forall_forall. intros T _ v Hv. apply Push_marshallable. exact Hv.
Qed.

(* ================================================================== *)
(** * The concrete scenarios of the specification, evaluated *)

(** The doubles 1, 2, 3, 7, 10, 20, 30, 42 and 1.5, and the float 1.5. *)
Example number_of_int_1 : number_of_int 1 = S754_finite false 4503599627370496 (-52).
Proof. reflexivity. Qed.

Example number_of_int_42 : number_of_int 42 = S754_finite false 5910974510923776 (-47).
Proof. reflexivity. Qed.

Example number_of_float_1_5 :
  number_of_float (S754_finite false 12582912 (-23))
  = S754_finite false 6755399441055744 (-52).
Proof. reflexivity. Qed.

(** Scenario 1: the integer 42 becomes one number slot holding 42. *)
Example scenario_integer :
  Push Tint 42 empty_process = Normal (lua_push (LNumber (number_of_int 42)) empty_process).
Proof. reflexivity. Qed.

(** Scenario 2: the sequence [10, 20, 30] becomes one table, 1 -> 10,
    2 -> 20, 3 -> 30. *)
Example scenario_sequence :
  exists t,
    Push (Tvector Tint) [10; 20; 30] empty_process
    = Normal (lua_push (LTable t) empty_process) /\
    luaH_getnum t 1 = LNumber (number_of_int 10) /\
    luaH_getnum t 2 = LNumber (number_of_int 20) /\
    luaH_getnum t 3 = LNumber (number_of_int 30) /\
    luaH_getnum t 4 = LNil.
Proof. eexists. repeat split; vm_compute; reflexivity. Qed.

(** Scenario 3: an empty optional of text becomes one nil slot. *)
Example scenario_optional :
  Push (Toptional Tstring) None empty_process = Normal (lua_push LNil empty_process).
Proof. reflexivity. Qed.

(** Scenario 4: the tuple (1.5f, 7, true) becomes one table, 1 -> 1.5,
    2 -> 7, 3 -> true. *)
Example scenario_tuple :
  exists t,
    Push (Ttuple [Tfloat; Tint; Tbool]) (S754_finite false 12582912 (-23), (7, (true, tt)))
         empty_process
    = Normal (lua_push (LTable t) empty_process) /\
    luaH_getnum t 1 = LNumber (S754_finite false 6755399441055744 (-52)) /\
    luaH_getnum t 2 = LNumber (number_of_int 7) /\
    luaH_getnum t 3 = LBoolean true.
Proof. eexists. repeat split; vm_compute; reflexivity. Qed.

(** Scenario 5: the map {"a": 1, "b": 2} becomes one table with exactly
    these two pairs. *)
Example scenario_map :
  Push (Tunordered_map Tstring Tint) [("a"%string, 1); ("b"%string, 2)] empty_process
  = Normal (lua_push (LTable [(LString "a", LNumber (number_of_int 1));
                              (LString "b", LNumber (number_of_int 2))]) empty_process).
Proof. vm_compute. reflexivity. Qed.

(** Scenario 6: a generic value tagged "no value" aborts the call. *)
Example scenario_no_value :
  Push TCLuaArgument {| m_iType := LUA_TNONE; m_value := LNil |} empty_process
  = Throw (logic_error "lua::Push") empty_process.
Proof. reflexivity. Qed.

(** The guard does not help inside a container: the exception leaves the
    key and the table under construction on the stack. *)
Example scenario_no_value_in_vector :
  Push (Tvector TCLuaArgument) [{| m_iType := LUA_TNONE; m_value := LNil |}] empty_process
  = Throw (logic_error "lua::Push")
          (lua_push (LNumber (number_of_int 1)) (lua_push (LTable []) empty_process)).
Proof. reflexivity. Qed.

(** A map key that reaches Lua as nil is refused by the runtime. *)
Example scenario_nil_key :
  exists L',
    Push (Tunordered_map (Toptional Tint) Tint) [(None, 1)] empty_process
    = Throw (lua_error "table index is nil") L'.
Proof. eexists. vm_compute. reflexivity. Qed.

(* ================================================================== *)
(** * The properties of the specification *)

Lemma runs_push_eq (c : M) (x : TValue) (L : Process) :
  runs c [] [x] -> c L = Normal (lua_push x L).
Proof. intros H. apply (proj1 (runs_push c x) H). Qed.

(** A call of [Push] that returns was given a marshallable value. *)
Lemma Push_returns_only_marshallable (T : HostType) (v : denote T) (L L' : Process) :
  Push T v L = Normal L' -> marshallable T v.
Proof.
  intros HL'. destruct (Push_shape T v) as [[x Hx]|[e [junk Hu]]].
  - exact (Push_returns_marshallable T v x Hx).
  - rewrite (Hu L (stack L) eq_refl) in HL'. discriminate.
Qed.

Lemma seq_ext (c1 c2 c2' : M) :
  (forall L, c2 L = c2' L) -> forall L, (c1 ;; c2) L = (c1 ;; c2') L.
Proof. intros H L. unfold seq. destruct (c1 L); [apply H | reflexivity]. Qed.

(** The fold of the tuple pusher, with its wrapping [int] key, is the loop
    of the specification as long as the key does not leave the range of
    [int]. *)
Lemma tuple_fold_in_order (Ts : list HostType) :
  forall (key : Z) (values : tuple_of denote Ts),
    INT_MIN <= key -> key + Z.of_nat (List.length Ts) <= INT_MAX + 1 ->
    forall L, tuple_fold denote Push Ts key values L
              = store_in_order (tuple_components denote Ts values) key L.
Proof.
  induction Ts as [|T Ts' IH]; intros key values Hlo Hhi L.
  - reflexivity.
  - cbn [tuple_fold tuple_components store_in_order projT1 projT2].
    apply seq_ext. apply seq_ext. intros L1.
    cbn [List.length] in Hhi. rewrite Nat2Z.inj_succ in Hhi.
    destruct Ts' as [|T' Ts''].
    + reflexivity.
    + cbn [List.length] in Hhi. rewrite Nat2Z.inj_succ in Hhi.
      rewrite int_succ_small by lia.
      apply IH; cbn [List.length]; rewrite ?Nat2Z.inj_succ; lia.
Qed.

(** The loops store under the keys they count through and under no
    other. *)
Lemma int_table_keyed (xs : list TValue) :
  forall (hi : Z) (t : Table) (i : Z),
    int_keyed hi t -> 0 < i -> i + Z.of_nat (List.length xs) <= hi + 1 -> hi <= INT_MAX ->
    int_keyed hi (int_table t i xs).
Proof.
  induction xs as [|x xs' IH]; intros hi t i Ht Hi Hlen Hhi.
  - exact Ht.
  - cbn [int_table]. cbn [List.length] in Hlen. rewrite Nat2Z.inj_succ in Hlen.
    destruct xs' as [|x' xs''].
    + cbn [int_table]. apply int_keyed_set; [exact Ht | lia].
    + cbn [List.length] in Hlen. rewrite Nat2Z.inj_succ in Hlen.
      rewrite int_succ_small by (unfold INT_MIN; lia).
      apply IH; try lia.
      * apply int_keyed_set; [exact Ht | lia].
      * cbn [List.length]. rewrite Nat2Z.inj_succ. lia.
Qed.

(** What a lookup finds is the value of an entry. *)
Lemma luaH_get_entry (t : Table) (q : TValue) :
  luaH_get t q <> LNil -> exists kv, In kv t /\ lua_rawequal (fst kv) q = true.
Proof.
  induction t as [|[k v] t' IH]; cbn [luaH_get]; intros H.
  - contradiction H. reflexivity.
  - destruct (lua_rawequal k q) eqn:E.
    + exists (k, v). split; [left; reflexivity | exact E].
    + destruct (IH H) as [kv [Hin Hkv]]. exists kv. split; [right; exact Hin | exact Hkv].
Qed.

Lemma sequence_keys (xs : list TValue) (q : TValue) :
  Z.of_nat (List.length xs) <= INT_MAX ->
  luaH_get (int_table [] 1 xs) q <> LNil ->
  exists i, 1 <= i <= Z.of_nat (List.length xs) /\
            lua_rawequal (LNumber (number_of_int i)) q = true.
Proof.
  intros Hlen Hq.
  assert (Hk : int_keyed (Z.of_nat (List.length xs)) (int_table [] 1 xs)).
  { apply int_table_keyed; [apply int_keyed_nil | lia | lia | exact Hlen]. }
  destruct (luaH_get_entry _ _ Hq) as [kv [Hin Hkv]].
  unfold int_keyed in Hk. rewrite Forall_forall in Hk.
  destruct (Hk kv Hin) as [j [Hj Ej]]. rewrite Ej in Hkv.
  exists j. split; [lia | exact Hkv].
Qed.

(** ** Stack balance *)

(** C1, as the code has it: for every supported host type [T] and every
    value [v : T] that holds no generic value tagged "no value" and no map
    key that reaches Lua as nil or NaN, one call [Push(L, v)] returns and
    leaves exactly one more slot on the Lua stack, above an unchanged
    stack, however deeply [T] nests.  These are the only values on which
    the call returns, and a call that returns has raised the depth by
    exactly 1. *)
Theorem Push_stack_balance (T : HostType) (v : denote T) (L : Process) :
  (marshallable T v ->
   exists x, Push T v L = Normal (lua_push x L) /\
             lua_gettop (lua_push x L) = S (lua_gettop L)) /\
  (forall L', Push T v L = Normal L' ->
              marshallable T v /\
              lua_gettop L' = S (lua_gettop L) /\ tl (stack L') = stack L).
Proof.
  split.
  - intros Hm. destruct (Push_marshallable T v Hm) as [x Hx].
    exists x. split; [|reflexivity]. apply runs_push_eq. exact Hx.
  - intros L' HL'. destruct (Push_shape T v) as [[x Hx]|[e [junk Hu]]].
    + rewrite (runs_push_eq _ _ L Hx) in HL'. injection HL' as <-.
      split; [exact (Push_returns_marshallable T v x Hx)|]. split; reflexivity.
    + rewrite (Hu L (stack L) eq_refl) in HL'. discriminate.
Qed.

Lemma Push_stack_balance_witness :
  exists x,
    Push (Tunordered_map Tstring (Tvector (Ttuple [Toptional Tint; Tbool])))
         [("a"%string, [(Some 10, (true, tt)); (None, (false, tt))]); ("b"%string, [])]
         empty_process
    = Normal (lua_push x empty_process) /\
    lua_gettop (lua_push x empty_process) = S (lua_gettop empty_process).
Proof.
  apply (proj1 (Push_stack_balance
                  (Tunordered_map Tstring (Tvector (Ttuple [Toptional Tint; Tbool])))
                  [("a"%string, [(Some 10, (true, tt)); (None, (false, tt))]);
                   ("b"%string, [])]
                  empty_process)).
  cbn [marshallable].
  repeat (constructor; cbn [fst snd variant_all tuple_all];
          try (eexists; split; [apply runs_push; intros L; reflexivity | reflexivity])).
Defined.

(** C1, as stated, fails: pushing a [CLuaArgument] tagged [LUA_TNONE]
    throws and the depth of the stack stays what it was. *)
Lemma Push_stack_balance_counterexample :
  Push TCLuaArgument {| m_iType := LUA_TNONE; m_value := LNil |} empty_process
  = Throw (logic_error "lua::Push") empty_process /\
  ~ (exists L', Push TCLuaArgument {| m_iType := LUA_TNONE; m_value := LNil |} empty_process
                = Normal L' /\
                lua_gettop L' = S (lua_gettop empty_process)).
Proof.
  split; [reflexivity|]. intros [L' [H _]]. discriminate H.
Qed.

(** ** The fatal guard *)

(** C2: [Push] on a [CLuaArgument] whose type is [LUA_TNONE] throws
    [std::logic_error]; the state it unwinds in is the state it was called
    in, so no slot has been pushed, and the call does not return. *)
Theorem Push_no_value_throws (arg : CLuaArgument) (L : Process) :
  CLuaArgument_GetType arg = LUA_TNONE ->
  Push TCLuaArgument arg L = Throw (logic_error "lua::Push") L /\
  stack (final_state (Push TCLuaArgument arg L)) = stack L /\
  (forall L', Push TCLuaArgument arg L <> Normal L').
Proof.
  intros H.
  assert (E : Push TCLuaArgument arg L = Throw (logic_error "lua::Push") L).
  { cbn [Push]. unfold Push_CLuaArgument. rewrite H. reflexivity. }
  rewrite E. repeat split. intros L'. discriminate.
Qed.

Lemma Push_no_value_throws_witness :
  Push TCLuaArgument {| m_iType := -1; m_value := LNil |}
       (lua_push (LBoolean true) empty_process)
  = Throw (logic_error "lua::Push") (lua_push (LBoolean true) empty_process) /\
  stack (final_state (Push TCLuaArgument {| m_iType := -1; m_value := LNil |}
                           (lua_push (LBoolean true) empty_process)))
  = stack (lua_push (LBoolean true) empty_process) /\
  (forall L', Push TCLuaArgument {| m_iType := -1; m_value := LNil |}
                   (lua_push (LBoolean true) empty_process) <> Normal L').
Proof.
  apply (Push_no_value_throws {| m_iType := -1; m_value := LNil |}
                              (lua_push (LBoolean true) empty_process)).
  reflexivity.
Defined.

(** ** Index translation *)

(** C3, as the code has it: for a [std::vector<T>] or a [std::array<T, N>]
    whose elements [e0 .. e(n-1)] are all marshallable, [n] being at most
    [INT_MAX], [Push] produces one table in which the value [Push] gives
    for [e(k)] is found at index [k + 1].  On other elements no table is
    produced: a call that returns was given marshallable elements only. *)
Theorem Push_sequence_index_translation (T : HostType) (L : Process) :
  (forall val : denote (Tvector T),
      marshallable (Tvector T) val ->
      Z.of_nat (List.length val) <= INT_MAX ->
      exists t, Push (Tvector T) val L = Normal (lua_push (LTable t) L) /\
                forall k e, nth_error val k = Some e ->
                  exists x, (forall L0, Push T e L0 = Normal (lua_push x L0)) /\
                            luaH_getnum t (Z.of_nat k + 1) = x) /\
  (forall (N : nat) (val : denote (Tarray T N)),
      marshallable (Tarray T N) val ->
      Z.of_nat N <= INT_MAX ->
      exists t, Push (Tarray T N) val L = Normal (lua_push (LTable t) L) /\
                forall k e, nth_error (array_elements N val) k = Some e ->
                  exists x, (forall L0, Push T e L0 = Normal (lua_push x L0)) /\
                            luaH_getnum t (Z.of_nat k + 1) = x) /\
  (forall (val : denote (Tvector T)) (L' : Process),
      Push (Tvector T) val L = Normal L' -> Forall (marshallable T) val) /\
  (forall (N : nat) (val : denote (Tarray T N)) (L' : Process),
      Push (Tarray T N) val L = Normal L' ->
      Forall (marshallable T) (array_elements N val)).
Proof.
  split; [|split; [|split]].
  - intros val Hm Hlen. cbn [marshallable] in Hm.
    destruct (marshallable_elements T val Hm) as [xs Hxs].
    exists (int_table [] 1 xs). split.
    + apply runs_push_eq. apply (runs_Push_vector (Push T)). exact Hxs.
    + intros k e Hk.
      destruct (sequence_lookup (Push T) val xs Hxs Hlen k e Hk) as [x [Hx Hget]].
      exists x. split; [intros L0; apply runs_push_eq; exact Hx | exact Hget].
  - intros N val Hm Hlen. cbn [marshallable] in Hm.
    destruct (marshallable_elements T _ Hm) as [xs Hxs].
    assert (Hlen' : Z.of_nat (List.length (array_elements N val)) <= INT_MAX)
      by (rewrite array_elements_length; exact Hlen).
    exists (int_table [] 1 xs). split.
    + apply runs_push_eq. rewrite <- number_table_int_table.
      * apply (runs_Push_array (Push T)). exact Hxs.
      * lia.
      * rewrite <- (Forall2_length Hxs), array_elements_length. lia.
    + intros k e Hk.
      destruct (sequence_lookup (Push T) _ xs Hxs Hlen' k e Hk) as [x [Hx Hget]].
      exists x. split; [intros L0; apply runs_push_eq; exact Hx | exact Hget].
  - intros val L' H. exact (Push_returns_only_marshallable (Tvector T) val L L' H).
  - intros N val L' H. exact (Push_returns_only_marshallable (Tarray T N) val L L' H).
Qed.

Lemma Push_sequence_index_translation_witness :
  (exists t, Push (Tvector Tint) [10; 20; 30] empty_process
             = Normal (lua_push (LTable t) empty_process) /\
             forall k e, nth_error [10; 20; 30] k = Some e ->
               exists x, (forall L0, Push Tint e L0 = Normal (lua_push x L0)) /\
                         luaH_getnum t (Z.of_nat k + 1) = x) /\
  (exists t, Push (Tarray Tint 3) (10, (20, (30, tt))) empty_process
             = Normal (lua_push (LTable t) empty_process) /\
             forall k e, nth_error (array_elements 3 (10, (20, (30, tt)))) k = Some e ->
               exists x, (forall L0, Push Tint e L0 = Normal (lua_push x L0)) /\
                         luaH_getnum t (Z.of_nat k + 1) = x) /\
  Forall (marshallable Tint) [10; 20; 30].
Proof.
  destruct (Push_sequence_index_translation Tint empty_process) as [Hvec [Harr [Hret _]]].
  split; [|split].
  - apply (Hvec [10; 20; 30]).
    + cbn. repeat constructor.
    + vm_compute. discriminate.
  - apply (Harr 3%nat (10, (20, (30, tt)))).
    + cbn. repeat constructor.
    + vm_compute. discriminate.
  - apply (Hret [10; 20; 30]
                (lua_push (LTable (int_table [] 1 [LNumber (number_of_int 10);
                                                   LNumber (number_of_int 20);
                                                   LNumber (number_of_int 30)]))
                          empty_process)).
    reflexivity.
Defined.

(** C3, as stated, fails: the vector and the array whose one element is a
    [CLuaArgument] tagged [LUA_TNONE] are sequences of one element [e0], and
    [Push] throws on them; no table is produced, so nothing is stored at
    index 1. *)
Lemma Push_sequence_index_translation_counterexample :
  Push (Tvector TCLuaArgument) [{| m_iType := LUA_TNONE; m_value := LNil |}] empty_process
  = Throw (logic_error "lua::Push")
          (lua_push (LNumber (number_of_int 1)) (lua_push (LTable []) empty_process)) /\
  Push (Tarray TCLuaArgument 1) ({| m_iType := LUA_TNONE; m_value := LNil |}, tt)
       empty_process
  = Throw (logic_error "lua::Push") (lua_push (LTable []) empty_process) /\
  ~ (exists t,
        Push (Tvector TCLuaArgument) [{| m_iType := LUA_TNONE; m_value := LNil |}]
             empty_process
        = Normal (lua_push (LTable t) empty_process)) /\
  ~ (exists t,
        Push (Tarray TCLuaArgument 1) ({| m_iType := LUA_TNONE; m_value := LNil |}, tt)
             empty_process
        = Normal (lua_push (LTable t) empty_process)).
Proof.
  split; [reflexivity|]. split; [reflexivity|].
  split; intros [t H]; discriminate H.
Qed.

(** ** Optional *)

(** C4: an empty [std::optional<T>] pushes exactly nil, and one that holds
    [v] does exactly what pushing [v] does. *)
Theorem Push_optional_round_trip (T : HostType) (L : Process) :
  Push (Toptional T) None L = Normal (lua_push LNil L) /\
  (forall v : denote T, Push (Toptional T) (Some v) L = Push T v L).
Proof. split; [reflexivity | intros v; reflexivity]. Qed.

(** ** Tuples *)

(** C5, as the code has it: for a [std::tuple<Ts...>] of arity [n], [n]
    being at most [INT_MAX], [Push] processes the components in
    declaration order: on every stack the call is the creation of a table
    followed, for [i = 1 .. n] in this order, by the push of the [i]-th
    component and its store at index [i].  When the components are all
    marshallable the call produces exactly one table; for every [i] the
    value found at index [i] is the value [Push] gives for the [i]-th
    component; index [n + 1] is empty and so is every key that is not
    one of [1 .. n].  The length of the table is exactly [n] when no
    component reaches Lua as nil. *)
Theorem Push_tuple_components (Ts : list HostType) (tuple : denote (Ttuple Ts))
        (L : Process) :
  Z.of_nat (List.length Ts) <= INT_MAX ->
  (forall L0, Push (Ttuple Ts) tuple L0
              = spec_Push_tuple (tuple_components denote Ts tuple) L0) /\
  (marshallable (Ttuple Ts) tuple ->
   exists t,
     Push (Ttuple Ts) tuple L = Normal (lua_push (LTable t) L) /\
     (forall i c,
         nth_error (tuple_components denote Ts tuple) i = Some c ->
         exists x, (forall L0, Push (projT1 c) (projT2 c) L0 = Normal (lua_push x L0)) /\
                   luaH_getnum t (Z.of_nat i + 1) = x) /\
     luaH_getnum t (Z.of_nat (List.length Ts) + 1) = LNil /\
     (forall q, luaH_get t q <> LNil ->
                exists i, 1 <= i <= Z.of_nat (List.length Ts) /\
                          lua_rawequal (LNumber (number_of_int i)) q = true) /\
     ((forall i c,
          nth_error (tuple_components denote Ts tuple) i = Some c ->
          Push (projT1 c) (projT2 c) L <> Normal (lua_push LNil L)) ->
      forall n, is_border t n <-> n = Z.of_nat (List.length Ts))).
Proof.
  intros Hlen.
  pose proof (tuple_components_length denote Ts tuple) as Hcl.
  split.
  { intros L0. cbn [Push]. unfold Push_tuple, spec_Push_tuple.
    rewrite Hcl. apply seq_ext. intros L1.
    apply tuple_fold_in_order; [unfold INT_MIN; lia | lia]. }
  intros Hm. cbn [marshallable] in Hm.
  destruct (marshallable_components Ts tuple Hm) as [xs Hxs].
  pose proof (Forall2_length Hxs) as Hxl.
  assert (Hxlen : List.length xs = List.length Ts) by (rewrite <- Hxl; exact Hcl).
  assert (Hlen' : Z.of_nat (List.length (tuple_components denote Ts tuple)) <= INT_MAX)
    by (rewrite Hcl; exact Hlen).
  exists (int_table [] 1 xs). split; [|split; [|split; [|split]]].
  - apply runs_push_eq. apply (runs_Push_tuple denote Push). exact Hxs.
  - intros i c Hi.
    destruct (sequence_lookup (fun c => Push (projT1 c) (projT2 c)) _ xs Hxs Hlen' i c Hi)
      as [x [Hx Hget]].
    exists x. split; [intros L0; apply runs_push_eq; exact Hx | exact Hget].
  - rewrite <- Hxlen. apply sequence_end. rewrite Hxlen. exact Hlen.
  - intros q Hq. rewrite <- Hxlen. apply sequence_keys; [rewrite Hxlen; exact Hlen | exact Hq].
  - intros Hnn n.
    rewrite <- Hxlen.
    apply sequence_border; [rewrite Hxlen; exact Hlen|].
    apply Forall_forall. intros x Hin Hnil. subst x.
    apply In_nth_error in Hin. destruct Hin as [i Hi].
    destruct (Forall2_nth_error_r _ _ _ Hxs i LNil Hi) as [c [Hc Hr]].
    apply (Hnn i c Hc). apply runs_push_eq. exact Hr.
Qed.

Lemma Push_tuple_components_witness :
  (forall L0,
      Push (Ttuple [Tdouble; Tint; Tbool]) (number_of_int 3, (7, (true, tt))) L0
      = spec_Push_tuple [existT denote Tdouble (number_of_int 3);
                         existT denote Tint 7;
                         existT denote Tbool true] L0) /\
  exists t,
    Push (Ttuple [Tdouble; Tint; Tbool]) (number_of_int 3, (7, (true, tt))) empty_process
    = Normal (lua_push (LTable t) empty_process) /\
    luaH_getnum t 1 = LNumber (number_of_int 3) /\
    luaH_getnum t 2 = LNumber (number_of_int 7) /\
    luaH_getnum t 3 = LBoolean true /\
    luaH_getnum t 4 = LNil /\
    (forall q, luaH_get t q <> LNil ->
               exists i, 1 <= i <= 3 /\
                         lua_rawequal (LNumber (number_of_int i)) q = true) /\
    forall n, is_border t n <-> n = 3.
Proof.
  destruct (Push_tuple_components [Tdouble; Tint; Tbool]
              (number_of_int 3, (7, (true, tt))) empty_process)
    as [Horder Hall].
  - vm_compute. discriminate.
  - split; [exact Horder|].
    destruct Hall as [t [Hpush [Hget [Hend [Hkeys Hlen]]]]].
    + cbn. repeat constructor.
    + exists t. split; [exact Hpush|].
      assert (H1 := Hget 0%nat (existT denote Tdouble (number_of_int 3)) eq_refl).
      assert (H2 := Hget 1%nat (existT denote Tint 7) eq_refl).
      assert (H3 := Hget 2%nat (existT denote Tbool true) eq_refl).
      destruct H1 as [x1 [P1 G1]], H2 as [x2 [P2 G2]], H3 as [x3 [P3 G3]].
      specialize (P1 empty_process). specialize (P2 empty_process).
      specialize (P3 empty_process).
      injection P1 as <-. injection P2 as <-. injection P3 as <-.
      split; [exact G1|]. split; [exact G2|]. split; [exact G3|].
      split; [exact Hend|]. split; [exact Hkeys|].
      apply Hlen. intros [|[|[|i]]] c Hc.
      * injection Hc as <-. discriminate.
      * injection Hc as <-. discriminate.
      * injection Hc as <-. discriminate.
      * destruct i; discriminate Hc.
Defined.

(** C5, as stated, fails: the tuple [(5, nullopt)] of type
    [std::tuple<int, std::optional<int>>] is pushed as a table that holds
    index 1 only; 2 is not a length of it, 1 is. *)
Lemma Push_tuple_components_counterexample :
  exists t,
    Push (Ttuple [Tint; Toptional Tint]) (5, (None, tt)) empty_process
    = Normal (lua_push (LTable t) empty_process) /\
    ~ is_border t (Z.of_nat (List.length [Tint; Toptional Tint])) /\
    is_border t 1.
Proof.
  eexists. split; [vm_compute; reflexivity|]. split.
  - intros [_ [[H|H] _]]; [discriminate H | apply H; vm_compute; reflexivity].
  - split; [vm_compute; split; discriminate|].
    split; [right; vm_compute; discriminate | vm_compute; reflexivity].
Qed.

(** ** Variants *)

(** C6: for every [std::variant<Ts...>] value, exactly one of the [n]
    alternatives is the one held, it is the one [index()] names, and [Push]
    on the variant is the call of [Push] for that alternative on the value
    held: one element pusher runs, never none and never two. *)
Theorem Push_variant_exactly_one (Ts : list HostType) (val : denote (Tvariant Ts)) :
  exists j T x,
    (j < List.length Ts)%nat /\
    j = variant_index denote Ts val /\
    nth_error Ts j = Some T /\
    variant_get_if denote Ts j val = Some (existT denote T x) /\
    (forall L, Push (Tvariant Ts) val L = Push T x L) /\
    (forall j', variant_get_if denote Ts j' val <> None -> j' = j).
Proof.
  induction Ts as [|T0 Ts' IH].
  - destruct val.
  - destruct val as [value|rest].
    + exists O, T0, value.
      split; [cbn [List.length]; lia|]. split; [reflexivity|]. split; [reflexivity|].
      split; [reflexivity|]. split; [intros L; reflexivity|].
      intros [|j'] H; [reflexivity | contradiction H; reflexivity].
    + destruct (IH rest) as [j [T [x [Hlt [Hidx [Hnth [Hget [Hpush Huniq]]]]]]]].
      exists (S j), T, x.
      split; [cbn [List.length]; lia|].
      split; [cbn [variant_index]; f_equal; exact Hidx|].
      split; [exact Hnth|]. split; [exact Hget|]. split; [exact Hpush|].
      intros [|j'] H; [contradiction H; reflexivity | f_equal; apply Huniq; exact H].
Qed.

(** ** The empty sequence *)

(** C7: an empty [std::vector<T>] is pushed as one table with no entry,
    whose only length is 0; the slot is a table, not nil. *)
Theorem Push_empty_vector (T : HostType) (L : Process) :
  Push (Tvector T) [] L = Normal (lua_push (LTable []) L) /\
  LTable [] <> LNil /\
  (forall n, is_border [] n <-> n = 0).
Proof.
  split; [reflexivity|]. split; [discriminate|].
  intros n. split.
  - intros [_ [[H|H] _]]; [exact H | contradiction H; reflexivity].
  - intros ->. split; [unfold INT_MAX; lia|]. split; [left; reflexivity | reflexivity].
Qed.

(** ** References *)

(** C8: a null raw pointer, a [shared_ptr] and a [unique_ptr] whose
    [get()] is null are pushed as nil, not as a handle. *)
Theorem Push_null_reference (L : Process) :
  Push Tptr nullptr L = Normal (lua_push LNil L) /\
  (forall ptr : shared_ptr,
      shared_ptr_get ptr = nullptr -> Push Tshared_ptr ptr L = Normal (lua_push LNil L)) /\
  (forall ptr : unique_ptr,
      unique_ptr_get ptr = nullptr -> Push Tunique_ptr ptr L = Normal (lua_push LNil L)).
Proof.
  split; [reflexivity|]. split; intros ptr H; cbn [Push];
    unfold Push_shared_ptr, Push_unique_ptr, lua_pushelement; rewrite H; reflexivity.
Qed.

Lemma Push_null_reference_witness :
  Push Tshared_ptr {| sp_stored := 0; sp_ctrl := 0 |} empty_process
  = Normal (lua_push LNil empty_process) /\
  Push Tunique_ptr {| up_stored := 0 |} empty_process
  = Normal (lua_push LNil empty_process).
Proof.
  destruct (Push_null_reference empty_process) as [_ [Hs Hu]]. split.
  - apply (Hs {| sp_stored := 0; sp_ctrl := 0 |}). reflexivity.
  - apply (Hu {| up_stored := 0 |}). reflexivity.
Defined.

(** ** Array and vector agree *)

(** C10, as the code has it: a [std::array<T, N>] and a [std::vector<T>]
    that hold the same elements in the same order, all of them
    marshallable, [N] being at most [INT_MAX], are pushed as the same
    table: the same keys [1 .. N] with the same values, although the array
    pusher stores with [lua_rawseti] under a [lua_Number] counter and the
    vector pusher pushes an [int] key and stores with [lua_settable].  If
    either call returns, the elements are marshallable. *)
Theorem Push_array_vector_agree (T : HostType) (N : nat) (val : denote (Tarray T N))
        (L : Process) :
  (marshallable (Tarray T N) val ->
   Z.of_nat N <= INT_MAX ->
   exists t,
     Push (Tarray T N) val L = Normal (lua_push (LTable t) L) /\
     Push (Tvector T) (array_elements N val) L = Normal (lua_push (LTable t) L) /\
     forall k e, nth_error (array_elements N val) k = Some e ->
       exists x, (forall L0, Push T e L0 = Normal (lua_push x L0)) /\
                 luaH_getnum t (Z.of_nat k + 1) = x) /\
  (forall L' : Process,
      Push (Tarray T N) val L = Normal L' \/
      Push (Tvector T) (array_elements N val) L = Normal L' ->
      Forall (marshallable T) (array_elements N val)).
Proof.
  split.
  - intros Hm Hlen. cbn [marshallable] in Hm.
    destruct (marshallable_elements T _ Hm) as [xs Hxs].
    assert (Hlen' : Z.of_nat (List.length (array_elements N val)) <= INT_MAX)
      by (rewrite array_elements_length; exact Hlen).
    exists (int_table [] 1 xs). split; [|split].
    + apply runs_push_eq. rewrite <- number_table_int_table.
      * apply (runs_Push_array (Push T)). exact Hxs.
      * lia.
      * rewrite <- (Forall2_length Hxs), array_elements_length. lia.
    + apply runs_push_eq. apply (runs_Push_vector (Push T)). exact Hxs.
    + intros k e Hk.
      destruct (sequence_lookup (Push T) _ xs Hxs Hlen' k e Hk) as [x [Hx Hget]].
      exists x. split; [intros L0; apply runs_push_eq; exact Hx | exact Hget].
  - intros L' [H|H].
    + exact (Push_returns_only_marshallable (Tarray T N) val L L' H).
    + exact (Push_returns_only_marshallable (Tvector T) (array_elements N val) L L' H).
Qed.

Lemma Push_array_vector_agree_witness :
  exists t,
    Push (Tarray (Toptional Tstring) 2) (Some "a"%string, (None, tt)) empty_process
    = Normal (lua_push (LTable t) empty_process) /\
    Push (Tvector (Toptional Tstring))
         (array_elements 2 (Some "a"%string, (None, tt))) empty_process
    = Normal (lua_push (LTable t) empty_process) /\
    forall k e, nth_error (array_elements 2 (Some "a"%string, (None, tt))) k = Some e ->
      exists x, (forall L0, Push (Toptional Tstring) e L0 = Normal (lua_push x L0)) /\
                luaH_getnum t (Z.of_nat k + 1) = x.
Proof.
  apply (proj1 (Push_array_vector_agree (Toptional Tstring) 2
                  (Some "a"%string, (None, tt)) empty_process)).
  - cbn. repeat constructor.
  - vm_compute. discriminate.
Defined.

(** C10, as stated, fails: the array and the vector that hold the number 5
    and then a [CLuaArgument] tagged [LUA_TNONE] contain the same two
    elements in the same order; both calls throw, neither produces a
    table, and they leave different stacks: the array pusher leaves the
    table under construction, the vector pusher leaves the table and, above
    it, the key 2. *)
Lemma Push_array_vector_agree_counterexample :
  Push (Tarray TCLuaArgument 2)
       ({| m_iType := 3; m_value := LNumber (number_of_int 5) |},
        ({| m_iType := LUA_TNONE; m_value := LNil |}, tt))
       empty_process
  = Throw (logic_error "lua::Push")
          (lua_push (LTable [(LNumber (number_of_int 1), LNumber (number_of_int 5))])
                    empty_process) /\
  Push (Tvector TCLuaArgument)
       [{| m_iType := 3; m_value := LNumber (number_of_int 5) |};
        {| m_iType := LUA_TNONE; m_value := LNil |}]
       empty_process
  = Throw (logic_error "lua::Push")
          (lua_push (LNumber (number_of_int 2))
             (lua_push (LTable [(LNumber (number_of_int 1), LNumber (number_of_int 5))])
                       empty_process)) /\
  ~ (exists t,
        Push (Tarray TCLuaArgument 2)
             ({| m_iType := 3; m_value := LNumber (number_of_int 5) |},
              ({| m_iType := LUA_TNONE; m_value := LNil |}, tt))
             empty_process
        = Normal (lua_push (LTable t) empty_process)) /\
  ~ (exists t,
        Push (Tvector TCLuaArgument)
             [{| m_iType := 3; m_value := LNumber (number_of_int 5) |};
              {| m_iType := LUA_TNONE; m_value := LNil |}]
             empty_process
        = Normal (lua_push (LTable t) empty_process)).
Proof.
  split; [vm_compute; reflexivity|]. split; [vm_compute; reflexivity|].
  assert (Ha : forall t,
             Push (Tarray TCLuaArgument 2)
                  ({| m_iType := 3; m_value := LNumber (number_of_int 5) |},
                   ({| m_iType := LUA_TNONE; m_value := LNil |}, tt))
                  empty_process
             <> Normal (lua_push (LTable t) empty_process)).
  { intros t. vm_compute. discriminate. }
  assert (Hv : forall t,
             Push (Tvector TCLuaArgument)
                  [{| m_iType := 3; m_value := LNumber (number_of_int 5) |};
                   {| m_iType := LUA_TNONE; m_value := LNil |}]
                  empty_process
             <> Normal (lua_push (LTable t) empty_process)).
  { intros t. vm_compute. discriminate. }
  split; intros [t H]; [exact (Ha t H) | exact (Hv t H)].
Qed.

(* ================================================================== *)
(** * Further properties of the code *)

(** ** Numbers cross the boundary exactly *)

Lemma SFeqb_finite_neg (m1 m2 : positive) (e1 e2 : Z) :
  SFeqb (S754_finite true m1 e1) (S754_finite true m2 e2) = true <->
  (m1, e1) = (m2, e2).
Proof.
  unfold SFeqb, SFcompare.
  destruct (Z.compare_spec e1 e2) as [E|E|E].
  - subst e2. fold (Pos.compare m1 m2).
    destruct (Pos.compare_spec m1 m2) as [F|F|F]; cbn [CompOpp].
    + subst. split; auto.
    + split; [discriminate|]. intros H. inversion H. lia.
    + split; [discriminate|]. intros H. inversion H. lia.
  - split; [discriminate|]. intros H. inversion H. lia.
  - split; [discriminate|]. intros H. inversion H. lia.
Qed.

Lemma number_of_int_eqb_signed (a b : Z) :
  - 2 ^ 53 < a < 2 ^ 53 -> - 2 ^ 53 < b < 2 ^ 53 ->
  SFeqb (number_of_int a) (number_of_int b) = (a =? b).
Proof.
  intros Ha Hb.
  destruct a as [|p|p], b as [|q|q].
  - reflexivity.
  - rewrite number_of_int_pos by lia. reflexivity.
  - rewrite number_of_int_neg by lia. reflexivity.
  - rewrite number_of_int_pos by lia. reflexivity.
  - apply number_of_int_eqb; lia.
  - rewrite number_of_int_pos, number_of_int_neg by lia. reflexivity.
  - rewrite number_of_int_neg by lia. reflexivity.
  - rewrite number_of_int_pos, number_of_int_neg by lia. reflexivity.
  - rewrite !number_of_int_neg by lia.
    assert (Hp : Zpos (digits2_pos p) <= dbl_prec)
      by (apply digits2_pos_le; unfold dbl_prec; lia).
    assert (Hq : Zpos (digits2_pos q) <= dbl_prec)
      by (apply digits2_pos_le; unfold dbl_prec; lia).
    destruct (Z.eqb_spec (Zneg p) (Zneg q)) as [E|E].
    + inversion E. subst. apply SFeqb_finite_neg. reflexivity.
    + apply Bool.not_true_is_false. intros H. apply SFeqb_finite_neg in H.
      apply E. f_equal. apply canon_inj; try assumption.
      rewrite (surjective_pairing (canon p)), (surjective_pairing (canon q)). exact H.
Qed.

Lemma int_of_number_of_int_signed (z : Z) :
  INT_MIN <= z <= INT_MAX -> int_of_number (number_of_int z) = z.
Proof.
  intros Hz. destruct z as [|p|p].
  - reflexivity.
  - apply int_of_number_of_int. lia.
  - assert (Hp : Zpos p < 2 ^ 53) by (unfold INT_MIN in Hz; lia).
    rewrite number_of_int_neg by assumption.
    assert (Hd : Zpos (digits2_pos p) <= dbl_prec)
      by (apply digits2_pos_le; unfold dbl_prec; lia).
    destruct (canon_value p Hd) as [V E].
    unfold int_of_number. rewrite V.
    assert (Q : (if 0 <=? snd (canon p)
                 then Zpos p * 2 ^ (- snd (canon p)) * 2 ^ snd (canon p)
                 else Zpos p * 2 ^ (- snd (canon p)) / 2 ^ (- snd (canon p))) = Zpos p).
    { destruct (Z.leb_spec 0 (snd (canon p))).
      - replace (snd (canon p)) with 0 by lia.
        change (2 ^ (- 0)) with 1. change (2 ^ 0) with 1. lia.
      - apply Z.div_mul. apply Z.pow_nonzero; lia. }
    rewrite Q. cbn [cond_Zopp].
    unfold INT_MIN, INT_MAX in *.
    destruct (Z.leb_spec (- 2 ^ 31) (- Zpos p)); [|lia].
    destruct (Z.leb_spec (- Zpos p) (2 ^ 31 - 1)); [reflexivity|lia].
Qed.

(** X1: an [int] is pushed as a number that converts back to the same
    [int], and two [int]s are pushed as raw-equal numbers only when they
    are equal; two [unsigned int]s likewise.  Nothing is lost in the
    [double]. *)
Theorem Push_integer_exact (L : Process) :
  (forall value : Z,
      INT_MIN <= value <= INT_MAX ->
      exists n, Push Tint value L = Normal (lua_push (LNumber n) L) /\
                int_of_number n = value) /\
  (forall a b : Z,
      INT_MIN <= a <= INT_MAX -> INT_MIN <= b <= INT_MAX ->
      exists x y, Push Tint a L = Normal (lua_push x L) /\
                  Push Tint b L = Normal (lua_push y L) /\
                  (lua_rawequal x y = true <-> a = b)) /\
  (forall a b : Z,
      0 <= a <= UINT_MAX -> 0 <= b <= UINT_MAX ->
      exists x y, Push Tunsigned a L = Normal (lua_push x L) /\
                  Push Tunsigned b L = Normal (lua_push y L) /\
                  (lua_rawequal x y = true <-> a = b)).
Proof.
  split; [|split].
  - intros value H. exists (number_of_int value). split; [reflexivity|].
    apply int_of_number_of_int_signed. exact H.
  - intros a b Ha Hb. exists (LNumber (number_of_int a)), (LNumber (number_of_int b)).
    split; [reflexivity|]. split; [reflexivity|]. cbn [lua_rawequal].
    rewrite number_of_int_eqb_signed by (unfold INT_MIN, INT_MAX in *; lia).
    apply Z.eqb_eq.
  - intros a b Ha Hb. exists (LNumber (number_of_int a)), (LNumber (number_of_int b)).
    split; [reflexivity|]. split; [reflexivity|]. cbn [lua_rawequal].
    rewrite number_of_int_eqb_signed by (unfold UINT_MAX in *; lia).
    apply Z.eqb_eq.
Qed.

Lemma Push_integer_exact_witness :
  (exists n, Push Tint (-7) empty_process = Normal (lua_push (LNumber n) empty_process) /\
             int_of_number n = -7) /\
  (exists x y, Push Tint (-7) empty_process = Normal (lua_push x empty_process) /\
               Push Tint 7 empty_process = Normal (lua_push y empty_process) /\
               (lua_rawequal x y = true <-> -7 = 7)) /\
  (exists x y, Push Tunsigned 4294967295 empty_process = Normal (lua_push x empty_process) /\
               Push Tunsigned 4294967294 empty_process = Normal (lua_push y empty_process) /\
               (lua_rawequal x y = true <-> 4294967295 = 4294967294)).
Proof.
  destruct (Push_integer_exact empty_process) as [H1 [H2 H3]].
  split; [|split].
  - apply (H1 (-7)). vm_compute. split; discriminate.
  - apply (H2 (-7) 7); vm_compute; split; discriminate.
  - apply (H3 4294967295 4294967294); vm_compute; split; discriminate.
Defined.

Lemma shl_align_digits (m : positive) (e e' : Z) :
  e' <= e ->
  Zpos (digits2_pos (fst (shl_align m e e'))) = Zpos (digits2_pos m) + (e - e') /\
  snd (shl_align m e e') = e'.
Proof.
  intros H. unfold shl_align.
  destruct (e' - e) as [|d|d] eqn:E; cbn [fst snd]; try lia.
  rewrite digits2_pos_iter_xO. lia.
Qed.

(** X2: a finite [float] is pushed as the [double] of the same value: the
    conversion in [lua_pushnumber(L, value)] only lengthens the mantissa
    and never rounds; the result is a normal binary64 datum. *)
Theorem Push_float_exact (s : bool) (m : positive) (e : Z) (L : Process) :
  valid_binary flt_prec flt_emax (S754_finite s m e) = true ->
  exists m' e',
    Push Tfloat (S754_finite s m e) L = Normal (lua_push (LNumber (S754_finite s m' e')) L) /\
    e' <= e /\
    Zpos m' = Zpos m * 2 ^ (e - e') /\
    valid_binary dbl_prec dbl_emax (S754_finite s m' e') = true.
Proof.
  intros Hv.
  cbn [valid_binary] in Hv. unfold bounded, canonical_mantissa in Hv.
  apply andb_prop in Hv. destruct Hv as [Hc He].
  apply Z.eqb_eq in Hc. apply Z.leb_le in He.
  unfold fexp, emin, flt_prec, flt_emax in Hc, He.
  set (d := Zpos (digits2_pos m)) in *.
  assert (Hd : 1 <= d) by (unfold d; lia).
  set (e' := d + e - dbl_prec).
  assert (He' : e' <= e /\ -1074 <= e' <= 971) by (unfold e', dbl_prec; lia).
  exists (fst (shl_align m e e')), e'.
  destruct (shl_align_digits m e e' (proj1 He')) as [D S].
  assert (D53 : Zpos (digits2_pos (fst (shl_align m e e'))) = dbl_prec)
    by (rewrite D; fold d; unfold e'; lia).
  split; [|split; [|split]].
  - cbn [Push]. unfold Push_float, lua_pushnumber. do 3 f_equal.
    unfold number_of_float.
    assert (R : binary_round dbl_prec dbl_emax s m e
                = S754_finite s (fst (shl_align m e e')) e').
    { unfold binary_round.
      replace (fexp dbl_prec dbl_emax (Zpos (digits2_pos m) + e)) with e'
        by (unfold fexp, emin, e', dbl_prec, dbl_emax; fold d; lia).
      destruct (shl_align m e e') as [mz ez] eqn:A. cbn [fst snd] in *. subst ez.
      apply binary_round_aux_canonical; [exact D53 | lia]. }
    destruct s; cbn [cond_Zopp Z.opp binary_normalize]; exact R.
  - lia.
  - apply shl_align_value. lia.
  - cbn [valid_binary]. unfold bounded, canonical_mantissa.
    rewrite D53. apply andb_true_intro. split.
    + apply Z.eqb_eq. unfold fexp, emin, dbl_prec, dbl_emax. lia.
    + apply Z.leb_le. unfold dbl_prec, dbl_emax. lia.
Qed.

Lemma Push_float_exact_witness :
  exists m' e',
    Push Tfloat (S754_finite false 12582912 (-23)) empty_process
    = Normal (lua_push (LNumber (S754_finite false m' e')) empty_process) /\
    e' <= -23 /\
    Zpos m' = 12582912 * 2 ^ (-23 - e') /\
    valid_binary dbl_prec dbl_emax (S754_finite false m' e') = true.
Proof.
  apply (Push_float_exact false 12582912 (-23) empty_process). reflexivity.
Defined.

(** ** What a call leaves on the stack *)

(** X3: whether it returns or throws, a call of [Push] never removes or
    changes a slot that was on the stack before it: the stack it leaves is
    the stack it found with some slots on top. *)
Theorem Push_keeps_stack_below (T : HostType) (v : denote T) (L : Process) :
  exists pushed, stack (final_state (Push T v L)) = pushed ++ stack L.
Proof.
  destruct (Push_shape T v) as [[x Hx]|[e [junk Hu]]].
  - rewrite (runs_push_eq _ _ L Hx). exists [x]. reflexivity.
  - rewrite (Hu L (stack L) eq_refl). exists junk. reflexivity.
Qed.

Lemma throws_nil (c : M) (e : exception) (junk : list TValue) :
  throws c [] e junk <-> forall L, c L = Throw e (set_stack L (junk ++ stack L)).
Proof.
  split.
  - intros H L. apply (H L (stack L)). reflexivity.
  - intros H L s E. rewrite H. cbn [app] in E. rewrite E. reflexivity.
Qed.

Lemma throws_frame (c : M) (pre frame : list TValue) (e : exception) (junk : list TValue) :
  throws c pre e junk -> throws c (pre ++ frame) e (junk ++ frame).
Proof. intros H L s E. rewrite <- !app_assoc in *. apply H. assumption. Qed.

Lemma throws_seq_l (c1 c2 : M) (pre : list TValue) (e : exception) (junk : list TValue) :
  throws c1 pre e junk -> throws (c1 ;; c2) pre e junk.
Proof. intros H L s E. unfold seq. rewrite (H L s E). reflexivity. Qed.

Lemma throws_seq_r (c1 c2 : M) (pre mid : list TValue) (e : exception)
      (junk : list TValue) :
  runs c1 pre mid -> throws c2 mid e junk -> throws (c1 ;; c2) pre e junk.
Proof.
  intros H1 H2 L s E. unfold seq. rewrite (H1 L s E).
  rewrite (H2 (set_stack L (mid ++ s)) s eq_refl). reflexivity.
Qed.

Ltac then_throws H := apply throws_seq_r with (1 := H).

Ltac above_throws frame H :=
  let H' := fresh in
  pose proof (runs_frame _ _ _ frame H) as H'; cbn [app] in H'; then_throws H'; clear H'.

Section ThrowingLoops.
Context {A : Type}.
Variable push : A -> M.

Lemma vector_loop_throws (pre : list A) (xs : list TValue) :
  Forall2 (fun v x => runs (push v) [] [x]) pre xs ->
  forall (e0 : A) (post : list A) (ex : exception) (junk : list TValue) (i : Z) (t : Table),
    INT_MIN <= i -> i + Z.of_nat (List.length pre) <= INT_MAX ->
    throws (push e0) [] ex junk ->
    throws (vector_loop push i (pre ++ e0 :: post)) [LTable t] ex
           (junk ++ [LNumber (number_of_int (i + Z.of_nat (List.length pre)));
                     LTable (int_table t i xs)]).
Proof.
  induction 1 as [|v x pre' xs' Hv Hrest IH]; intros e0 post ex junk i t Hlo Hhi He.
  - cbn [app List.length vector_loop int_table]. rewrite Z.add_0_r.
    above_throws [LTable t] (runs_lua_pushnumber (number_of_int i)).
    apply throws_seq_l.
    apply (throws_frame _ [] [LNumber (number_of_int i); LTable t]). exact He.
  - cbn [List.length] in Hhi. rewrite Nat2Z.inj_succ in Hhi.
    cbn [app List.length vector_loop int_table].
    above_throws [LTable t] (runs_lua_pushnumber (number_of_int i)).
    above_throws [LNumber (number_of_int i); LTable t] Hv.
    then_throws (runs_lua_settable _ x t (valid_key_int i ltac:(lia))).
    rewrite int_succ_small by lia.
    replace (i + Z.of_nat (S (List.length pre'))) with (i + 1 + Z.of_nat (List.length pre'))
      by lia.
    apply IH; [lia | lia | exact He].
Qed.

Lemma array_loop_throws (pre : list A) (xs : list TValue) :
  Forall2 (fun v x => runs (push v) [] [x]) pre xs ->
  forall (e0 : A) (post : list A) (ex : exception) (junk : list TValue)
         (i : lua_Number) (t : Table),
    throws (push e0) [] ex junk ->
    throws (array_loop push i (pre ++ e0 :: post)) [LTable t] ex
           (junk ++ [LTable (number_table t i xs)]).
Proof.
  induction 1 as [|v x pre' xs' Hv Hrest IH]; intros e0 post ex junk i t He.
  - cbn [app array_loop number_table].
    apply throws_seq_l. apply (throws_frame _ [] [LTable t]). exact He.
  - cbn [app array_loop number_table].
    above_throws [LTable t] Hv.
    then_throws (runs_lua_rawseti (int_of_number i) x t).
    apply IH. exact He.
Qed.
End ThrowingLoops.

Lemma Forall2_pushes_runs {A : Type} (push : A -> M) (l : list A) (xs : list TValue) :
  Forall2 (fun v x => forall L0, push v L0 = Normal (lua_push x L0)) l xs ->
  Forall2 (fun v x => runs (push v) [] [x]) l xs.
Proof.
  intros H. eapply Forall2_impl; [|exact H]. intros v x Hv. apply runs_push. exact Hv.
Qed.

Lemma prefix_lookup (xs : list TValue) :
  Z.of_nat (List.length xs) <= INT_MAX ->
  forall k x, nth_error xs k = Some x ->
    luaH_getnum (int_table [] 1 xs) (Z.of_nat k + 1) = x.
Proof.
  intros Hlen k x Hk. rewrite Z.add_comm.
  apply int_table_get_inside; try assumption; [apply int_keyed_nil | lia | lia].
Qed.

(** X4: the vector pusher is not exception safe.  When the elements before
    position [k] are pushed, [k] being less than [INT_MAX], and the element
    at [k] throws, the call throws the same exception and leaves on the
    stack it found, from the bottom up: the table under construction,
    filled with the elements before [k]; the key [k + 1]; and, on top,
    whatever the throwing element left. *)
Theorem Push_vector_throw_leaves_partial
        (T : HostType) (pre : list (denote T)) (e0 : denote T) (post : list (denote T))
        (xs : list TValue) (ex : exception) (junk : list TValue) (L : Process) :
  Forall2 (fun v x => forall L0, Push T v L0 = Normal (lua_push x L0)) pre xs ->
  (forall L0, Push T e0 L0 = Throw ex (set_stack L0 (junk ++ stack L0))) ->
  Z.of_nat (List.length pre) < INT_MAX ->
  exists t,
    Push (Tvector T) (pre ++ e0 :: post) L
    = Throw ex (set_stack L (junk ++ LNumber (number_of_int (Z.of_nat (List.length pre) + 1))
                                  :: LTable t :: stack L)) /\
    (forall k x, nth_error xs k = Some x -> luaH_getnum t (Z.of_nat k + 1) = x).
Proof.
  intros Hpre He Hlen.
  pose proof (Forall2_length Hpre) as Hl.
  exists (int_table [] 1 xs). split.
  - cbn [Push]. unfold Push_vector.
    assert (H : throws (lua_newtable ;; vector_loop (Push T) 1 (pre ++ e0 :: post)) [] ex
                       (junk ++ [LNumber (number_of_int (1 + Z.of_nat (List.length pre)));
                                 LTable (int_table [] 1 xs)])).
    { then_throws (runs_lua_createtable 0 0).
      apply vector_loop_throws.
      - apply Forall2_pushes_runs. exact Hpre.
      - unfold INT_MIN. lia.
      - lia.
      - apply throws_nil. exact He. }
    rewrite (proj1 (throws_nil _ _ _) H L). rewrite <- app_assoc. cbn [app].
    rewrite (Z.add_comm 1). reflexivity.
  - apply prefix_lookup. rewrite <- Hl. lia.
Qed.

Lemma Push_vector_throw_leaves_partial_witness :
  exists t,
    Push (Tvector TCLuaArgument)
         ([{| m_iType := 3; m_value := LNumber (number_of_int 5) |}]
            ++ {| m_iType := LUA_TNONE; m_value := LNil |} :: [])
         empty_process
    = Throw (logic_error "lua::Push")
            (set_stack empty_process
               ([] ++ LNumber (number_of_int (Z.of_nat 1 + 1)) :: LTable t
                   :: stack empty_process)) /\
    (forall k x, nth_error [LNumber (number_of_int 5)] k = Some x ->
                 luaH_getnum t (Z.of_nat k + 1) = x).
Proof.
  apply (Push_vector_throw_leaves_partial TCLuaArgument
           [{| m_iType := 3; m_value := LNumber (number_of_int 5) |}]
           {| m_iType := LUA_TNONE; m_value := LNil |} []
           [LNumber (number_of_int 5)] (logic_error "lua::Push") [] empty_process).
  - repeat constructor.
  - intros L0. cbn [Push]. unfold Push_CLuaArgument. cbn [CLuaArgument_GetType m_iType].
    rewrite Z.eqb_refl. cbn [app]. rewrite set_stack_same. reflexivity.
  - vm_compute. reflexivity.
Defined.

(** X5: neither is the array pusher.  When the elements before position
    [k] are pushed, [k] being at most [INT_MAX], and the element at [k]
    throws, the call throws the same exception and leaves on the stack it
    found, from the bottom up: the table under construction, filled with
    the elements before [k]; and, on top, whatever the throwing element
    left. *)
Theorem Push_array_throw_leaves_partial
        (T : HostType) (N : nat) (val : denote (Tarray T N))
        (pre : list (denote T)) (e0 : denote T) (post : list (denote T))
        (xs : list TValue) (ex : exception) (junk : list TValue) (L : Process) :
  @array_elements (denote T) N val = pre ++ e0 :: post ->
  Forall2 (fun v x => forall L0, Push T v L0 = Normal (lua_push x L0)) pre xs ->
  (forall L0, Push T e0 L0 = Throw ex (set_stack L0 (junk ++ stack L0))) ->
  Z.of_nat (List.length pre) <= INT_MAX ->
  exists t,
    Push (Tarray T N) val L = Throw ex (set_stack L (junk ++ LTable t :: stack L)) /\
    (forall k x, nth_error xs k = Some x -> luaH_getnum t (Z.of_nat k + 1) = x).
Proof.
  intros Hval Hpre He Hlen.
  pose proof (Forall2_length Hpre) as Hl.
  exists (int_table [] 1 xs). split.
  - cbn [Push]. unfold Push_array. rewrite Hval.
    assert (H : throws (lua_createtable (Z.of_nat N) 0 ;;
                        array_loop (Push T) (number_of_int 1) (pre ++ e0 :: post)) [] ex
                       (junk ++ [LTable (number_table [] (number_of_int 1) xs)])).
    { then_throws (runs_lua_createtable (Z.of_nat N) 0).
      apply array_loop_throws.
      - apply Forall2_pushes_runs. exact Hpre.
      - apply throws_nil. exact He. }
    rewrite (proj1 (throws_nil _ _ _) H L). rewrite <- app_assoc. cbn [app].
    rewrite number_table_int_table by lia. reflexivity.
  - apply prefix_lookup. rewrite <- Hl. exact Hlen.
Qed.

Lemma Push_array_throw_leaves_partial_witness :
  exists t,
    Push (Tarray TCLuaArgument 2)
         ({| m_iType := 3; m_value := LNumber (number_of_int 5) |},
          ({| m_iType := LUA_TNONE; m_value := LNil |}, tt))
         empty_process
    = Throw (logic_error "lua::Push")
            (set_stack empty_process ([] ++ LTable t :: stack empty_process)) /\
    (forall k x, nth_error [LNumber (number_of_int 5)] k = Some x ->
                 luaH_getnum t (Z.of_nat k + 1) = x).
Proof.
  apply (Push_array_throw_leaves_partial TCLuaArgument 2
           ({| m_iType := 3; m_value := LNumber (number_of_int 5) |},
            ({| m_iType := LUA_TNONE; m_value := LNil |}, tt))
           [{| m_iType := 3; m_value := LNumber (number_of_int 5) |}]
           {| m_iType := LUA_TNONE; m_value := LNil |} []
           [LNumber (number_of_int 5)] (logic_error "lua::Push") [] empty_process).
  - reflexivity.
  - repeat constructor.
  - intros L0. cbn [Push]. unfold Push_CLuaArgument. cbn [CLuaArgument_GetType m_iType].
    rewrite Z.eqb_refl. cbn [app]. rewrite set_stack_same. reflexivity.
  - vm_compute. discriminate.
Defined.

(** ** The length of a pushed sequence *)

Lemma no_nil_values {A : Type} (push : A -> M) (val : list A) (xs : list TValue)
      (L : Process) :
  Forall2 (fun v x => runs (push v) [] [x]) val xs ->
  (forall e, In e val -> push e L <> Normal (lua_push LNil L)) ->
  Forall (fun x => x <> LNil) xs.
Proof.
  intros H Hnn. apply Forall_forall. intros x Hin Hnil. subst x.
  apply In_nth_error in Hin. destruct Hin as [i Hi].
  destruct (Forall2_nth_error_r _ _ _ H i LNil Hi) as [e [He Hr]].
  apply (Hnn e (nth_error_In _ _ He)). apply runs_push_eq. exact Hr.
Qed.

(** X6: a [std::vector<T>] or [std::array<T, N>] of [n] marshallable
    elements none of which is pushed as nil becomes a table whose length
    is exactly [n]: [n] is its only border. *)
Theorem Push_sequence_length (T : HostType) (L : Process) :
  (forall val : list (denote T),
      marshallable (Tvector T) val ->
      Z.of_nat (List.length val) <= INT_MAX ->
      (forall e, In e val -> Push T e L <> Normal (lua_push LNil L)) ->
      exists t, Push (Tvector T) val L = Normal (lua_push (LTable t) L) /\
                forall n, is_border t n <-> n = Z.of_nat (List.length val)) /\
  (forall (N : nat) (val : std_array (denote T) N),
      marshallable (Tarray T N) val ->
      Z.of_nat N <= INT_MAX ->
      (forall e, In e (@array_elements (denote T) N val) ->
                 Push T e L <> Normal (lua_push LNil L)) ->
      exists t, Push (Tarray T N) val L = Normal (lua_push (LTable t) L) /\
                forall n, is_border t n <-> n = Z.of_nat N).
Proof.
  split.
  - intros val Hm Hlen Hnn. cbn [marshallable] in Hm.
    destruct (marshallable_elements T val Hm) as [xs Hxs].
    pose proof (Forall2_length Hxs) as Hl.
    exists (int_table [] 1 xs). split.
    + apply runs_push_eq. apply (runs_Push_vector (Push T)). exact Hxs.
    + intros n. rewrite Hl. apply sequence_border; [rewrite <- Hl; exact Hlen|].
      exact (no_nil_values (Push T) val xs L Hxs Hnn).
  - intros N val Hm Hlen Hnn. cbn [marshallable] in Hm.
    destruct (marshallable_elements T _ Hm) as [xs Hxs].
    pose proof (Forall2_length Hxs) as Hl. rewrite array_elements_length in Hl.
    exists (int_table [] 1 xs). split.
    + apply runs_push_eq. rewrite <- number_table_int_table by lia.
      apply (runs_Push_array (Push T)). exact Hxs.
    + intros n. rewrite Hl. apply sequence_border; [rewrite <- Hl; exact Hlen|].
      exact (no_nil_values (Push T) _ xs L Hxs Hnn).
Qed.

Lemma Push_sequence_length_witness :
  (exists t, Push (Tvector Tstring) ["a"%string; "b"%string] empty_process
             = Normal (lua_push (LTable t) empty_process) /\
             forall n, is_border t n <-> n = Z.of_nat (List.length ["a"%string; "b"%string])) /\
  (exists t, Push (Tarray Tbool 2) (true, (false, tt)) empty_process
             = Normal (lua_push (LTable t) empty_process) /\
             forall n, is_border t n <-> n = Z.of_nat 2).
Proof.
  destruct (Push_sequence_length Tstring empty_process) as [Hvec _].
  destruct (Push_sequence_length Tbool empty_process) as [_ Harr].
  split.
  - apply (Hvec ["a"%string; "b"%string]).
    + cbn. repeat constructor.
    + vm_compute. discriminate.
    + intros e _. discriminate.
  - apply (Harr 2%nat (true, (false, tt))).
    + cbn. repeat constructor.
    + vm_compute. discriminate.
    + intros e _. discriminate.
Defined.

(** X7: whether the number of elements is a length of the table a vector
    is pushed as is decided by its last element: it is one exactly when
    that element is not pushed as nil.  A vector that ends in an empty
    optional or a null reference is not reported in full by the length
    operator. *)
Theorem Push_vector_last_element (T : HostType) (val : list (denote T)) (e : denote T)
        (L : Process) :
  marshallable (Tvector T) (val ++ [e]) ->
  Z.of_nat (List.length (val ++ [e])) <= INT_MAX ->
  exists t x,
    Push (Tvector T) (val ++ [e]) L = Normal (lua_push (LTable t) L) /\
    (forall L0, Push T e L0 = Normal (lua_push x L0)) /\
    (is_border t (Z.of_nat (List.length (val ++ [e]))) <-> x <> LNil).
Proof.
  intros Hm Hlen. cbn [marshallable] in Hm.
  destruct (marshallable_elements T _ Hm) as [xs Hxs].
  pose proof (Forall2_length Hxs) as Hl.
  assert (Hk : nth_error (val ++ [e]) (List.length val) = Some e).
  { rewrite nth_error_app2 by lia. rewrite Nat.sub_diag. reflexivity. }
  destruct (sequence_lookup (Push T) _ xs Hxs Hlen _ e Hk) as [x [Hx Hget]].
  assert (Hn : Z.of_nat (List.length (val ++ [e])) = Z.of_nat (List.length val) + 1)
    by (rewrite length_app; cbn [List.length]; lia).
  exists (int_table [] 1 xs), x. split; [|split].
  - apply runs_push_eq. apply (runs_Push_vector (Push T)). exact Hxs.
  - intros L0. apply runs_push_eq. exact Hx.
  - unfold is_border. rewrite Hn, Hget. rewrite <- Hn, Hl.
    rewrite sequence_end by (rewrite <- Hl; exact Hlen).
    split.
    + intros [_ [[H0|Hx0] _]]; [lia | exact Hx0].
    + intros Hx0. split; [lia|]. split; [right; exact Hx0 | reflexivity].
Qed.

Lemma Push_vector_last_element_witness :
  exists t x,
    Push (Tvector (Toptional Tint)) ([Some 1] ++ [None]) empty_process
    = Normal (lua_push (LTable t) empty_process) /\
    (forall L0, Push (Toptional Tint) None L0 = Normal (lua_push x L0)) /\
    (is_border t (Z.of_nat (List.length ([Some 1] ++ [@None Z]))) <-> x <> LNil).
Proof.
  apply (Push_vector_last_element (Toptional Tint) [Some 1] None empty_process).
  - cbn. repeat constructor.
  - vm_compute. discriminate.
Defined.

(** ** Sequences of sequences *)

(** X8: a vector of vectors is pushed as a table of tables: the element
    at position [j] of the row at position [i] is found at index [j + 1]
    of the table found at index [i + 1]. *)
Theorem Push_nested_vector (T : HostType) (val : list (list (denote T))) (L : Process) :
  marshallable (Tvector (Tvector T)) val ->
  Z.of_nat (List.length val) <= INT_MAX ->
  (forall row, In row val -> Z.of_nat (List.length row) <= INT_MAX) ->
  exists t,
    Push (Tvector (Tvector T)) val L = Normal (lua_push (LTable t) L) /\
    forall i row j e,
      nth_error val i = Some row -> nth_error row j = Some e ->
      exists ti x,
        luaH_getnum t (Z.of_nat i + 1) = LTable ti /\
        luaH_getnum ti (Z.of_nat j + 1) = x /\
        (forall L0, Push T e L0 = Normal (lua_push x L0)).
Proof.
  intros Hm Hlen Hrows.
  destruct (marshallable_elements (Tvector T) val Hm) as [xs Hxs].
  exists (int_table [] 1 xs). split.
  - apply runs_push_eq. apply (runs_Push_vector (Push (Tvector T))). exact Hxs.
  - intros i row j e Hi Hj.
    destruct (sequence_lookup (Push (Tvector T)) val xs Hxs Hlen i row Hi) as [xi [Hxi Hgi]].
    assert (Hmrow : marshallable (Tvector T) row)
      by (exact (Push_returns_marshallable (Tvector T) row xi Hxi)).
    cbn [marshallable] in Hmrow.
    destruct (marshallable_elements T row Hmrow) as [ys Hys].
    pose proof (runs_Push_vector (Push T) row ys Hys) as Hrow.
    pose proof (runs_deterministic _ _ _ _ Hxi Hrow) as E. injection E as E.
    rewrite E in Hgi.
    destruct (sequence_lookup (Push T) row ys Hys
                              (Hrows row (nth_error_In _ _ Hi)) j e Hj) as [x [Hx Hgj]].
    exists (int_table [] 1 ys), x. split; [exact Hgi|]. split; [exact Hgj|].
    intros L0. apply runs_push_eq. exact Hx.
Qed.

Lemma Push_nested_vector_witness :
  exists t,
    Push (Tvector (Tvector Tint)) [[1; 2]; [3]] empty_process
    = Normal (lua_push (LTable t) empty_process) /\
    forall i row j e,
      nth_error [[1; 2]; [3]] i = Some row -> nth_error row j = Some e ->
      exists ti x,
        luaH_getnum t (Z.of_nat i + 1) = LTable ti /\
        luaH_getnum ti (Z.of_nat j + 1) = x /\
        (forall L0, Push Tint e L0 = Normal (lua_push x L0)).
Proof.
  apply (Push_nested_vector Tint [[1; 2]; [3]] empty_process).
  - cbn. repeat constructor.
  - vm_compute. discriminate.
  - intros row [<-|[<-|[]]]; vm_compute; discriminate.
Defined.

(** ** Maps *)

Lemma SFeqb_true (x y : spec_float) :
  SFeqb x y = true <->
  match x, y with
  | S754_zero _, S754_zero _ => True
  | S754_infinity s, S754_infinity s' => s = s'
  | S754_finite s m e, S754_finite s' m' e' => s = s' /\ (m, e) = (m', e')
  | _, _ => False
  end.
Proof.
  destruct x as [s|s| |s m e], y as [s'|s'| |s' m' e'].
  16:{ destruct s, s'.
       - rewrite SFeqb_finite_neg. split; [auto | intros [_ H]; exact H].
       - split; [discriminate | intros [H _]; discriminate H].
       - split; [discriminate | intros [H _]; discriminate H].
       - rewrite SFeqb_finite_pos. split; [auto | intros [_ H]; exact H]. }
  all: repeat match goal with b : bool |- _ => destruct b end;
    cbn; split; intros H; try discriminate; try contradiction; try reflexivity; exact I.
Qed.

Lemma SFeqb_sym (x y : spec_float) : SFeqb x y = true -> SFeqb y x = true.
Proof.
  rewrite !SFeqb_true. destruct x, y; try contradiction; try trivial.
  - intros H. symmetry. exact H.
  - intros [H1 H2]. split; symmetry; assumption.
Qed.

Lemma SFeqb_trans (x y z : spec_float) :
  SFeqb x y = true -> SFeqb y z = true -> SFeqb x z = true.
Proof.
  rewrite !SFeqb_true. destruct x, y; try contradiction; destruct z; try contradiction;
    try trivial.
  - intros H1 H2. congruence.
  - intros [H1 H2] [H3 H4]. split; congruence.
Qed.

Lemma rawequal_sym (a b : TValue) : lua_rawequal a b = true -> lua_rawequal b a = true.
Proof.
  destruct a, b; cbn [lua_rawequal]; try discriminate; try trivial.
  - intros H. apply Bool.eqb_prop in H. subst. apply Bool.eqb_reflx.
  - apply SFeqb_sym.
  - intros H. apply String.eqb_eq in H. subst. apply String.eqb_refl.
  - destruct u, u0; cbn [userdata_equal]; try discriminate;
      intros H; apply Z.eqb_eq in H; subst; apply Z.eqb_refl.
Qed.

Lemma rawequal_trans (a b c : TValue) :
  lua_rawequal a b = true -> lua_rawequal b c = true -> lua_rawequal a c = true.
Proof.
  destruct a, b; cbn [lua_rawequal]; try discriminate; destruct c; try discriminate;
    try trivial.
  - intros H1 H2. apply Bool.eqb_prop in H1, H2. subst. apply Bool.eqb_reflx.
  - apply SFeqb_trans.
  - intros H1 H2. apply String.eqb_eq in H1, H2. subst. apply String.eqb_refl.
  - destruct u, u0; cbn [userdata_equal]; try discriminate; destruct u1;
      try discriminate; intros H1 H2; apply Z.eqb_eq in H1, H2; subst; apply Z.eqb_refl.
Qed.

(** Keys raw-equal to the same key answer every query alike. *)
Lemma rawequal_congr (k k' q : TValue) :
  lua_rawequal k' k = true -> lua_rawequal k' q = lua_rawequal k q.
Proof.
  intros H.
  destruct (lua_rawequal k' q) eqn:E1, (lua_rawequal k q) eqn:E2; try reflexivity.
  - rewrite (rawequal_trans _ _ _ (rawequal_sym _ _ H) E1) in E2. discriminate.
  - rewrite (rawequal_trans _ _ _ H E2) in E1. discriminate.
Qed.

Lemma luaH_get_insert (t : Table) (k v q : TValue) :
  luaH_get (luaH_insert t k v) q = if lua_rawequal k q then v else luaH_get t q.
Proof.
  induction t as [|[k' v'] t' IH]; cbn [luaH_insert luaH_get].
  - reflexivity.
  - destruct (lua_rawequal k' k) eqn:E; cbn [luaH_get].
    + rewrite (rawequal_congr k k' q E). destruct (lua_rawequal k q); reflexivity.
    + rewrite IH. destruct (lua_rawequal k' q) eqn:E1, (lua_rawequal k q) eqn:E2;
        try reflexivity.
      rewrite (rawequal_trans _ _ _ E1 (rawequal_sym _ _ E2)) in E. discriminate.
Qed.

Lemma luaH_get_remove (t : Table) (k q : TValue) :
  luaH_get (luaH_remove t k) q = if lua_rawequal k q then LNil else luaH_get t q.
Proof.
  induction t as [|[k' v'] t' IH]; cbn [luaH_remove luaH_get].
  - destruct (lua_rawequal k q); reflexivity.
  - destruct (lua_rawequal k' k) eqn:E; cbn [luaH_get].
    + rewrite IH, (rawequal_congr k k' q E). destruct (lua_rawequal k q); reflexivity.
    + rewrite IH. destruct (lua_rawequal k' q) eqn:E1, (lua_rawequal k q) eqn:E2;
        try reflexivity.
      rewrite (rawequal_trans _ _ _ E1 (rawequal_sym _ _ E2)) in E. discriminate.
Qed.

(** Reading after writing: the value written under a raw-equal key, the
    old value under any other. *)
Lemma luaH_get_set (t : Table) (k v q : TValue) :
  luaH_get (luaH_set t k v) q = if lua_rawequal k q then v else luaH_get t q.
Proof.
  unfold luaH_set. destruct v; cbn [ttisnil]; try apply luaH_get_insert.
  apply luaH_get_remove.
Qed.

Lemma pair_table_get (kxs : list (TValue * TValue)) :
  forall (t : Table) (q : TValue),
    luaH_get (pair_table t kxs) q = last_value kxs q (luaH_get t q).
Proof.
  induction kxs as [|[k x] rest IH]; intros t q; cbn [pair_table last_value].
  - reflexivity.
  - rewrite IH, luaH_get_set. reflexivity.
Qed.

Lemma last_value_none (kxs : list (TValue * TValue)) (q : TValue) :
  (forall p, In p kxs -> lua_rawequal (fst p) q = false) ->
  forall d, last_value kxs q d = d.
Proof.
  induction kxs as [|[k x] rest IH]; intros H d; cbn [last_value].
  - reflexivity.
  - rewrite IH by (intros p Hp; apply H; right; exact Hp).
    pose proof (H (k, x) (or_introl eq_refl)) as Hk. cbn [fst] in Hk.
    rewrite Hk. reflexivity.
Qed.

Lemma last_value_all (kxs : list (TValue * TValue)) (q v : TValue) :
  (exists p, In p kxs /\ lua_rawequal (fst p) q = true) ->
  (forall p, In p kxs -> lua_rawequal (fst p) q = true -> snd p = v) ->
  forall d, last_value kxs q d = v.
Proof.
  induction kxs as [|[k x] rest IH]; intros [p [Hp Hq]] Hall d; cbn [last_value].
  - destruct Hp.
  - destruct (existsb (fun p' => lua_rawequal (fst p') q) rest) eqn:E.
    + apply existsb_exists in E. apply IH; [exact E|].
      intros p' Hp'. apply Hall. right. exact Hp'.
    + assert (Hnone : forall p', In p' rest -> lua_rawequal (fst p') q = false).
      { intros p' Hp'. destruct (lua_rawequal (fst p') q) eqn:E'; [|reflexivity].
        assert (Hex : existsb (fun p' => lua_rawequal (fst p') q) rest = true)
          by (apply existsb_exists; exists p'; split; assumption).
        rewrite Hex in E. discriminate. }
      rewrite (last_value_none rest q Hnone).
      destruct Hp as [<-|Hp].
      * cbn [fst] in Hq. rewrite Hq. exact (Hall (k, x) (or_introl eq_refl) Hq).
      * rewrite (Hnone p Hp) in Hq. discriminate.
Qed.

Section MapLoopExact.
Context {A B : Type}.
Variable pushK : A -> M.
Variable pushV : B -> M.

Lemma map_loop_exact (val : list (A * B)) (kxs : list (TValue * TValue)) :
  Forall2 (fun kv p => runs (pushK (fst kv)) [] [fst p] /\ valid_key (fst p) = true /\
                       runs (pushV (snd kv)) [] [snd p]) val kxs ->
  forall t : Table, runs (map_loop pushK pushV val) [LTable t] [LTable (pair_table t kxs)].
Proof.
  induction 1 as [|[k v] [xk xv] val' kxs' [Hk [Hvalid Hv]] Hrest IH]; intros t.
  - apply runs_ret.
  - cbn [fst snd] in *. cbn [map_loop pair_table].
    above [LTable t] Hk. above [xk; LTable t] Hv.
    next (runs_lua_settable xk xv t Hvalid). apply IH.
Qed.

Lemma map_loop_bad_key (pre : list (A * B)) (kxs : list (TValue * TValue)) :
  Forall2 (fun kv p => runs (pushK (fst kv)) [] [fst p] /\ valid_key (fst p) = true /\
                       runs (pushV (snd kv)) [] [snd p]) pre kxs ->
  forall (k0 : A) (v0 : B) (post : list (A * B)) (xk xv : TValue) (t : Table),
    runs (pushK k0) [] [xk] -> runs (pushV v0) [] [xv] -> valid_key xk = false ->
    exists msg,
      throws (map_loop pushK pushV (pre ++ (k0, v0) :: post)) [LTable t] (lua_error msg)
             [xv; xk; LTable (pair_table t kxs)].
Proof.
  induction 1 as [|[k v] [xk' xv'] pre' kxs' [Hk [Hvalid Hv]] Hrest IH];
    intros k0 v0 post xk xv t Hk0 Hv0 Hbad.
  - assert (Hset : exists msg, throws (lua_settable (-3)) [xv; xk; LTable t] (lua_error msg)
                                      [xv; xk; LTable t]).
    { destruct xk; try discriminate.
      - exists "table index is nil"%string. intros L s E. cbn [app] in *.
        unfold lua_settable. rewrite E, index2adr_3.
        rewrite <- E, set_stack_same. reflexivity.
      - exists "table index is NaN"%string. intros L s E. cbn [app] in *.
        unfold lua_settable. rewrite E, index2adr_3.
        cbn [valid_key] in Hbad. destruct (number_isnan n); [|discriminate].
        rewrite <- E, set_stack_same. reflexivity. }
    destruct Hset as [msg Hset]. exists msg. cbn [app map_loop pair_table].
    above_throws [LTable t] Hk0. above_throws [xk; LTable t] Hv0.
    apply throws_seq_l. exact Hset.
  - cbn [fst snd] in *.
    destruct (IH k0 v0 post xk xv (luaH_set t xk' xv') Hk0 Hv0 Hbad) as [msg Hmsg].
    exists msg. cbn [app map_loop pair_table].
    above_throws [LTable t] Hk. above_throws [xk'; LTable t] Hv.
    then_throws (runs_lua_settable xk' xv' t Hvalid). exact Hmsg.
Qed.
End MapLoopExact.

Lemma Forall2_In_l {A B : Type} (R : A -> B -> Prop) (l : list A) (l' : list B) (a : A) :
  Forall2 R l l' -> In a l -> exists b, In b l' /\ R a b.
Proof.
  intros H Hin. apply In_nth_error in Hin. destruct Hin as [i Hi].
  destruct (Forall2_nth_error_l _ _ _ H i a Hi) as [b [Hb Hr]].
  exists b. split; [exact (nth_error_In _ _ Hb) | exact Hr].
Qed.

Lemma Forall2_In_r {A B : Type} (R : A -> B -> Prop) (l : list A) (l' : list B) (b : B) :
  Forall2 R l l' -> In b l' -> exists a, In a l /\ R a b.
Proof.
  intros H Hin. apply In_nth_error in Hin. destruct Hin as [i Hi].
  destruct (Forall2_nth_error_r _ _ _ H i b Hi) as [a [Ha Hr]].
  exists a. split; [exact (nth_error_In _ _ Ha) | exact Hr].
Qed.

(** The keys and values the entries of a marshallable map are pushed as. *)
Lemma marshallable_entries (K V : HostType) (val : list (denote K * denote V)) :
  marshallable (Tunordered_map K V) val ->
  exists kxs,
    Forall2 (fun kv p => runs (Push K (fst kv)) [] [fst p] /\ valid_key (fst p) = true /\
                         runs (Push V (snd kv)) [] [snd p]) val kxs.
Proof.
  intros Hm. cbn [marshallable] in Hm.
  induction Hm as [|kv val' [_ [HmV [k [Hk Hvalid]]]] Hrest [kxs IH]].
  - exists []. constructor.
  - destruct (Push_marshallable V (snd kv) HmV) as [x Hx].
    exists ((k, x) :: kxs). constructor; [|exact IH]. cbn [fst snd]. auto.
Qed.

Lemma runs_Push_unordered_map (K V : HostType) (val : list (denote K * denote V))
      (kxs : list (TValue * TValue)) :
  Forall2 (fun kv p => runs (Push K (fst kv)) [] [fst p] /\ valid_key (fst p) = true /\
                       runs (Push V (snd kv)) [] [snd p]) val kxs ->
  runs (Push (Tunordered_map K V) val) [] [LTable (pair_table [] kxs)].
Proof.
  intros H. cbn [Push]. unfold Push_unordered_map.
  next (runs_lua_createtable 0 0). apply map_loop_exact. exact H.
Qed.

(** X9: in the table a map is pushed as, a key reads the value of the last
    entry, in iteration order, whose key was pushed as a raw-equal Lua
    value, and nil when there is none: entries whose keys coincide in Lua
    (an [int] 1 and a [double] 1.0 held by a variant key) overwrite one
    another, the last one winning. *)
Theorem Push_unordered_map_last_wins (K V : HostType) (val : list (denote K * denote V))
        (L : Process) :
  marshallable (Tunordered_map K V) val ->
  exists t kxs,
    Push (Tunordered_map K V) val L = Normal (lua_push (LTable t) L) /\
    Forall2 (fun kv p => (forall L0, Push K (fst kv) L0 = Normal (lua_push (fst p) L0)) /\
                         (forall L0, Push V (snd kv) L0 = Normal (lua_push (snd p) L0)))
            val kxs /\
    forall q, luaH_get t q = last_value kxs q LNil.
Proof.
  intros Hm. destruct (marshallable_entries K V val Hm) as [kxs Hkxs].
  exists (pair_table [] kxs), kxs. split; [|split].
  - apply runs_push_eq. apply runs_Push_unordered_map. exact Hkxs.
  - eapply Forall2_impl; [|exact Hkxs]. intros kv p [Hk [_ Hv]].
    split; intros L0; apply runs_push_eq; assumption.
  - intros q. apply pair_table_get.
Qed.

Lemma Push_unordered_map_last_wins_witness :
  exists t kxs,
    Push (Tunordered_map (Tvariant [Tint; Tdouble]) Tstring)
         [(inl 1, "int"%string); (inr (inl (number_of_int 1)), "double"%string)]
         empty_process
    = Normal (lua_push (LTable t) empty_process) /\
    Forall2 (fun kv p =>
               (forall L0, Push (Tvariant [Tint; Tdouble]) (fst kv) L0
                           = Normal (lua_push (fst p) L0)) /\
               (forall L0, Push Tstring (snd kv) L0 = Normal (lua_push (snd p) L0)))
            [(inl 1, "int"%string); (inr (inl (number_of_int 1)), "double"%string)] kxs /\
    forall q, luaH_get t q = last_value kxs q LNil.
Proof.
  apply (Push_unordered_map_last_wins (Tvariant [Tint; Tdouble]) Tstring
           [(inl 1, "int"%string); (inr (inl (number_of_int 1)), "double"%string)]
           empty_process).
  cbn [marshallable].
  repeat (constructor; cbn [fst snd variant_all];
          try (eexists; split; [apply runs_push; intros L; reflexivity | reflexivity])).
Defined.

Lemma pushes_same (c : M) (x y : TValue) :
  (forall L0, c L0 = Normal (lua_push x L0)) -> runs c [] [y] -> y = x.
Proof.
  intros Hx Hy. apply runs_push in Hx.
  pose proof (runs_deterministic _ _ _ _ Hy Hx) as E. injection E as E. exact E.
Qed.

Section MapLookup.
Variables K V : HostType.
Variable val : list (denote K * denote V).
Variable kxs : list (TValue * TValue).
Hypothesis Hkxs :
  Forall2 (fun kv p => runs (Push K (fst kv)) [] [fst p] /\ valid_key (fst p) = true /\
                       runs (Push V (snd kv)) [] [snd p]) val kxs.

Lemma entries_none (q : TValue) :
  (forall kv xk, In kv val ->
     (forall L0, Push K (fst kv) L0 = Normal (lua_push xk L0)) ->
     lua_rawequal xk q = false) ->
  last_value kxs q LNil = LNil.
Proof.
  intros Hnone. apply last_value_none. intros p Hp.
  destruct (Forall2_In_r _ _ _ p Hkxs Hp) as [kv [Hin [Hk _]]].
  apply (Hnone kv (fst p) Hin). intros L0. apply runs_push_eq. exact Hk.
Qed.

Hypothesis Hdist :
  forall kv kv' xk xk',
    In kv val -> In kv' val ->
    (forall L0, Push K (fst kv) L0 = Normal (lua_push xk L0)) ->
    (forall L0, Push K (fst kv') L0 = Normal (lua_push xk' L0)) ->
    lua_rawequal xk xk' = true -> kv = kv'.

Lemma entries_found (kv : denote K * denote V) (xk xv q : TValue) :
  In kv val ->
  (forall L0, Push K (fst kv) L0 = Normal (lua_push xk L0)) ->
  (forall L0, Push V (snd kv) L0 = Normal (lua_push xv L0)) ->
  lua_rawequal xk q = true ->
  last_value kxs q LNil = xv.
Proof.
  intros Hin Hk Hv Hq. apply last_value_all.
  - destruct (Forall2_In_l _ _ _ kv Hkxs Hin) as [p [Hp [Hpk _]]].
    exists p. split; [exact Hp|]. rewrite (pushes_same _ _ _ Hk Hpk). exact Hq.
  - intros p' Hp' Hq'.
    destruct (Forall2_In_r _ _ _ p' Hkxs Hp') as [kv' [Hin' [Hk' [_ Hv']]]].
    assert (E : kv = kv').
    { apply (Hdist kv kv' xk (fst p') Hin Hin' Hk).
      - intros L0. apply runs_push_eq. exact Hk'.
      - exact (rawequal_trans _ _ _ Hq (rawequal_sym _ _ Hq')). }
    subst kv'. exact (pushes_same _ _ _ Hv Hv').
Qed.
End MapLookup.

(** X10: when no two entries of a map have keys that are pushed as
    raw-equal Lua values, the table the map is pushed as holds exactly its
    pairs: a query raw-equal to the key of an entry reads the value of that
    entry, and a query raw-equal to no key reads nil. *)
Theorem Push_unordered_map_pairs (K V : HostType) (val : list (denote K * denote V))
        (L : Process) :
  marshallable (Tunordered_map K V) val ->
  (forall kv kv' xk xk',
      In kv val -> In kv' val ->
      (forall L0, Push K (fst kv) L0 = Normal (lua_push xk L0)) ->
      (forall L0, Push K (fst kv') L0 = Normal (lua_push xk' L0)) ->
      lua_rawequal xk xk' = true -> kv = kv') ->
  exists t,
    Push (Tunordered_map K V) val L = Normal (lua_push (LTable t) L) /\
    (forall kv xk xv q,
        In kv val ->
        (forall L0, Push K (fst kv) L0 = Normal (lua_push xk L0)) ->
        (forall L0, Push V (snd kv) L0 = Normal (lua_push xv L0)) ->
        lua_rawequal xk q = true ->
        luaH_get t q = xv) /\
    (forall q,
        (forall kv xk, In kv val ->
           (forall L0, Push K (fst kv) L0 = Normal (lua_push xk L0)) ->
           lua_rawequal xk q = false) ->
        luaH_get t q = LNil).
Proof.
  intros Hm Hdist. destruct (marshallable_entries K V val Hm) as [kxs Hkxs].
  exists (pair_table [] kxs). split; [|split].
  - apply runs_push_eq. apply runs_Push_unordered_map. exact Hkxs.
  - intros kv xk xv q Hin Hk Hv Hq. rewrite pair_table_get.
    exact (entries_found K V val kxs Hkxs Hdist kv xk xv q Hin Hk Hv Hq).
  - intros q Hnone. rewrite pair_table_get.
    exact (entries_none K V val kxs Hkxs q Hnone).
Qed.

Lemma Push_unordered_map_pairs_witness :
  exists t,
    Push (Tunordered_map Tstring Tint) [("a"%string, 1); ("b"%string, 2)] empty_process
    = Normal (lua_push (LTable t) empty_process) /\
    luaH_get t (LString "a") = LNumber (number_of_int 1) /\
    luaH_get t (LString "b") = LNumber (number_of_int 2) /\
    luaH_get t (LString "c") = LNil.
Proof.
  destruct (Push_unordered_map_pairs Tstring Tint [("a"%string, 1); ("b"%string, 2)]
              empty_process) as [t [Hpush [Hfound Hnone]]].
  - cbn [marshallable].
    repeat (constructor; cbn [fst snd];
            try (eexists; split; [apply runs_push; intros L; reflexivity | reflexivity])).
  - intros kv kv' xk xk' Hin Hin' Hk Hk' Heq.
    specialize (Hk empty_process). specialize (Hk' empty_process).
    destruct Hin as [<-|[<-|[]]], Hin' as [<-|[<-|[]]];
      injection Hk as <-; injection Hk' as <-; try reflexivity; discriminate Heq.
  - exists t. split; [exact Hpush|]. split; [|split].
    + apply (Hfound ("a"%string, 1) (LString "a") (LNumber (number_of_int 1)));
        [left; reflexivity | intros L0; reflexivity | intros L0; reflexivity | reflexivity].
    + apply (Hfound ("b"%string, 2) (LString "b") (LNumber (number_of_int 2)));
        [right; left; reflexivity | intros L0; reflexivity | intros L0; reflexivity
         | reflexivity].
    + apply Hnone. intros kv xk Hin Hk. specialize (Hk empty_process).
      destruct Hin as [<-|[<-|[]]]; injection Hk as <-; reflexivity.
Defined.

(** X11: the order in which the iterator of the map visits the entries
    does not show in the result: two maps with the same entries in
    different orders, no two keys pushed as raw-equal Lua values, are
    pushed as tables that read alike under every key. *)
Theorem Push_unordered_map_order (K V : HostType) (val val' : list (denote K * denote V))
        (L : Process) :
  Permutation val val' ->
  marshallable (Tunordered_map K V) val ->
  (forall kv kv' xk xk',
      In kv val -> In kv' val ->
      (forall L0, Push K (fst kv) L0 = Normal (lua_push xk L0)) ->
      (forall L0, Push K (fst kv') L0 = Normal (lua_push xk' L0)) ->
      lua_rawequal xk xk' = true -> kv = kv') ->
  exists t t',
    Push (Tunordered_map K V) val L = Normal (lua_push (LTable t) L) /\
    Push (Tunordered_map K V) val' L = Normal (lua_push (LTable t') L) /\
    forall q, luaH_get t q = luaH_get t' q.
Proof.
  intros Hperm Hm Hdist.
  assert (Hm' : marshallable (Tunordered_map K V) val').
  { cbn [marshallable] in *. rewrite Forall_forall in *. intros kv Hin.
    apply Hm. exact (Permutation_in _ (Permutation_sym Hperm) Hin). }
  assert (Hdist' : forall kv kv' xk xk',
             In kv val' -> In kv' val' ->
             (forall L0, Push K (fst kv) L0 = Normal (lua_push xk L0)) ->
             (forall L0, Push K (fst kv') L0 = Normal (lua_push xk' L0)) ->
             lua_rawequal xk xk' = true -> kv = kv').
  { intros kv kv' xk xk' Hin Hin'. apply Hdist.
    - exact (Permutation_in _ (Permutation_sym Hperm) Hin).
    - exact (Permutation_in _ (Permutation_sym Hperm) Hin'). }
  destruct (marshallable_entries K V val Hm) as [kxs Hkxs].
  destruct (marshallable_entries K V val' Hm') as [kxs' Hkxs'].
  exists (pair_table [] kxs), (pair_table [] kxs'). split; [|split].
  - apply runs_push_eq. apply runs_Push_unordered_map. exact Hkxs.
  - apply runs_push_eq. apply runs_Push_unordered_map. exact Hkxs'.
  - intros q. rewrite !pair_table_get. change (luaH_get [] q) with LNil.
    destruct (existsb (fun p => lua_rawequal (fst p) q) kxs) eqn:E.
    + apply existsb_exists in E. destruct E as [p [Hp Hq]].
      destruct (Forall2_In_r _ _ _ p Hkxs Hp) as [kv [Hin [Hk [_ Hv]]]].
      assert (Hk0 : forall L0, Push K (fst kv) L0 = Normal (lua_push (fst p) L0))
        by (intros L0; apply runs_push_eq; exact Hk).
      assert (Hv0 : forall L0, Push V (snd kv) L0 = Normal (lua_push (snd p) L0))
        by (intros L0; apply runs_push_eq; exact Hv).
      rewrite (entries_found K V val kxs Hkxs Hdist kv (fst p) (snd p) q Hin Hk0 Hv0 Hq).
      rewrite (entries_found K V val' kxs' Hkxs' Hdist' kv (fst p) (snd p) q
                 (Permutation_in _ Hperm Hin) Hk0 Hv0 Hq).
      reflexivity.
    + assert (Hnone : forall kv xk, In kv val ->
                (forall L0, Push K (fst kv) L0 = Normal (lua_push xk L0)) ->
                lua_rawequal xk q = false).
      { intros kv xk Hin Hk.
        destruct (Forall2_In_l _ _ _ kv Hkxs Hin) as [p [Hp [Hpk _]]].
        rewrite <- (pushes_same _ _ _ Hk Hpk).
        destruct (lua_rawequal (fst p) q) eqn:E'; [|reflexivity].
        assert (Hex : existsb (fun p => lua_rawequal (fst p) q) kxs = true)
          by (apply existsb_exists; exists p; split; assumption).
        rewrite Hex in E. discriminate. }
      rewrite (entries_none K V val kxs Hkxs q Hnone).
      rewrite (entries_none K V val' kxs' Hkxs' q).
      * reflexivity.
      * intros kv xk Hin. apply Hnone. exact (Permutation_in _ (Permutation_sym Hperm) Hin).
Qed.

Lemma Push_unordered_map_order_witness :
  exists t t',
    Push (Tunordered_map Tstring Tint) [("a"%string, 1); ("b"%string, 2)] empty_process
    = Normal (lua_push (LTable t) empty_process) /\
    Push (Tunordered_map Tstring Tint) [("b"%string, 2); ("a"%string, 1)] empty_process
    = Normal (lua_push (LTable t') empty_process) /\
    forall q, luaH_get t q = luaH_get t' q.
Proof.
  apply (Push_unordered_map_order Tstring Tint
           [("a"%string, 1); ("b"%string, 2)] [("b"%string, 2); ("a"%string, 1)]
           empty_process).
  - apply perm_swap.
  - cbn [marshallable].
    repeat (constructor; cbn [fst snd];
            try (eexists; split; [apply runs_push; intros L; reflexivity | reflexivity])).
  - intros kv kv' xk xk' Hin Hin' Hk Hk' Heq.
    specialize (Hk empty_process). specialize (Hk' empty_process).
    destruct Hin as [<-|[<-|[]]], Hin' as [<-|[<-|[]]];
      injection Hk as <-; injection Hk' as <-; try reflexivity; discriminate Heq.
Defined.

(** X12: a map entry whose key is pushed as nil or as NaN stops the call
    with a Lua error.  The error comes from [lua_settable], after the key
    and the value have both been pushed: they stay on the stack, above the
    table under construction, which holds the entries before. *)
Theorem Push_unordered_map_bad_key
        (K V : HostType) (pre : list (denote K * denote V))
        (k0 : denote K) (v0 : denote V) (post : list (denote K * denote V))
        (xk xv : TValue) (L : Process) :
  marshallable (Tunordered_map K V) pre ->
  (forall L0, Push K k0 L0 = Normal (lua_push xk L0)) ->
  (forall L0, Push V v0 L0 = Normal (lua_push xv L0)) ->
  valid_key xk = false ->
  exists msg t,
    Push (Tunordered_map K V) (pre ++ (k0, v0) :: post) L
    = Throw (lua_error msg) (set_stack L (xv :: xk :: LTable t :: stack L)) /\
    Push (Tunordered_map K V) pre L = Normal (lua_push (LTable t) L).
Proof.
  intros Hm Hk Hv Hbad.
  destruct (marshallable_entries K V pre Hm) as [kxs Hkxs].
  destruct (map_loop_bad_key (Push K) (Push V) pre kxs Hkxs k0 v0 post xk xv []
              (proj2 (runs_push _ _) Hk) (proj2 (runs_push _ _) Hv) Hbad) as [msg Hmsg].
  exists msg, (pair_table [] kxs). split.
  - cbn [Push]. unfold Push_unordered_map.
    assert (H : throws (lua_newtable ;; map_loop (Push K) (Push V) (pre ++ (k0, v0) :: post))
                       [] (lua_error msg) [xv; xk; LTable (pair_table [] kxs)]).
    { then_throws (runs_lua_createtable 0 0). exact Hmsg. }
    exact (proj1 (throws_nil _ _ _) H L).
  - apply runs_push_eq. apply runs_Push_unordered_map. exact Hkxs.
Qed.

Lemma Push_unordered_map_bad_key_witness :
  exists msg t,
    Push (Tunordered_map (Toptional Tstring) Tint)
         ([(Some "a"%string, 1)] ++ (None, 2) :: [(Some "c"%string, 3)]) empty_process
    = Throw (lua_error msg)
            (set_stack empty_process
               (LNumber (number_of_int 2) :: LNil :: LTable t :: stack empty_process)) /\
    Push (Tunordered_map (Toptional Tstring) Tint) [(Some "a"%string, 1)] empty_process
    = Normal (lua_push (LTable t) empty_process).
Proof.
  apply (Push_unordered_map_bad_key (Toptional Tstring) Tint
           [(Some "a"%string, 1)] None 2 [(Some "c"%string, 3)]
           LNil (LNumber (number_of_int 2)) empty_process).
  - cbn [marshallable].
    repeat (constructor; cbn [fst snd];
            try (eexists; split; [apply runs_push; intros L; reflexivity | reflexivity])).
  - intros L0. reflexivity.
  - intros L0. reflexivity.
  - reflexivity.
Defined.
